(** * Gravitational potential of the Solar System: a shallow embedding

    This development embeds [gravitational_potential_solar_system.py] and
    proves the properties its specification states about it.

    Numbers.  The program computes with Python and numpy floats.  The
    main embedding takes every number to be an exact rational ([Q],
    compared with [==]): it says what the values are up to rounding, and a
    division whose divisor is zero raises [ZeroDivisionError], as Python's
    [/] does.  What depends on rounding, on underflow or on overflow (how
    many points a grid has, whether its last point reaches the stop value,
    whether a small divisor is zero) is not decided by that embedding:
    module [B64] repeats [get_phi], [np.arange] and the dense step over
    the primitive binary64 floats, and the runs on which the two
    arithmetics part are evaluated there.

    Exceptions.  A computation that may raise returns a [result]; [Raise e]
    aborts everything that follows, as an uncaught exception does. *)

From Stdlib Require Import Floats.
From Stdlib Require Import QArith Qabs Qround Lqa Lia ZArith.
From Stdlib Require Import List String Bool Permutation Sorted Morphisms.
Import ListNotations.

Open Scope Q_scope.

Set Warnings "-inexact-float".

(** ** Exceptions and results *)

Inductive exn : Type :=
| ZeroDivisionError
| TypeError
| KeyError
| ValueError
| OSError
| JSONDecodeError
| RequestException
| KeyboardInterrupt
| OverflowError
| ImportError.

Inductive result (A : Type) : Type :=
| Ok (a : A)
| Raise (e : exn).

Arguments Ok {A} a.
Arguments Raise {A} e.

Definition bind {A B : Type} (r : result A) (k : A -> result B) : result B :=
  match r with
  | Ok a => k a
  | Raise e => Raise e
  end.

Notation "x <- r ;; k" := (bind r (fun x => k))
  (at level 61, r at next level, right associativity).

(** Two results agree when both returned, with equal rationals, or both
    raised the same exception. *)
Definition req (r1 r2 : result Q) : Prop :=
  match r1, r2 with
  | Ok a, Ok b => a == b
  | Raise e1, Raise e2 => e1 = e2
  | _, _ => False
  end.

(** ** Python's arithmetic on exact numbers *)

(** [a < b] *)
Definition Qltb (a b : Q) : bool :=
  (Qnum a * QDen b <? Qnum b * QDen a)%Z.

(** [a / b] between Python numbers: a zero divisor raises.  The quotient
    of rationals is exact and is zero only for a zero dividend; how
    binary64 differs, and numpy's division, is [B64.div]. *)
Definition py_div (a b : Q) : result Q :=
  if Qeq_bool b 0 then Raise ZeroDivisionError else Ok (a / b).

(** ** Module constants (lines 4-6) *)

Definition G : Q := (74 # 10) * 10 ^ (-28).
Definition M_sun : Q := (1989 # 1000) * 10 ^ 30.
Definition R_sun : Q := 7 * 10 ^ 8.

(** ** [get_phi] (lines 9-13) *)

(** The expression returned when [S < R]. *)
Definition phi_inside (M R S : Q) : result Q :=
  py_div (G * M * (S ^ 2 - 3 * (R ^ 2))) (2 * (R ^ 3)).

(** The expression returned otherwise. *)
Definition phi_outside (M S : Q) : result Q :=
  py_div (- G * M) S.

(** Over the rationals the only exception is the [ZeroDivisionError] of a
    zero divisor; the [OverflowError] of [R**3] and the divisors that
    underflow to zero are in [B64.get_phi]. *)
Definition get_phi (M R S : Q) : result Q :=
  if Qltb S R then phi_inside M R S else phi_outside M S.

(** [-get_phi(M, R, S)], the magnitude the sampler stores. *)
Definition neg_get_phi (M R S : Q) : result Q :=
  v <- get_phi M R S ;; Ok (- v).

(** The specification's wording of the potential, with the field's total
    division: the uniform-sphere formula inside the body and the point-mass
    formula outside, for the constant 7.4e-28. *)
Definition potential_spec (M R S : Q) : Q :=
  if Qlt_le_dec S R
  then (74 # 10 ^ 29) * M * (S * S - 3 * (R * R)) / (2 * (R * R * R))
  else - ((74 # 10 ^ 29) * M / S).

(** [abs(a)] is [Qabs a]; [int(a)] truncates toward zero. *)
Definition py_int (a : Q) : Z :=
  if Qltb a 0 then Qceiling a else Qfloor a.

(** [max(iterable)]: the first maximal element; [ValueError] when empty. *)
Definition py_max (l : list Q) : result Q :=
  match l with
  | [] => Raise ValueError
  | x :: l' => Ok (fold_left (fun m y => if Qltb m y then y else m) l' x)
  end.

(** [range(n)] *)
Definition py_range (n : Z) : list Q :=
  map (fun i => inject_Z (Z.of_nat i)) (seq 0 (Z.to_nat n)).

(** ** Dictionaries

    A Python [dict] keeps its keys in insertion order; assigning to a key
    that is present replaces the value where it stands. *)

Section Dict.
Context {V : Type}.

Definition dict : Type := list (string * V).

Fixpoint dict_set (k : string) (v : V) (d : dict) : dict :=
  match d with
  | [] => [(k, v)]
  | (k', v') :: d' =>
      if String.eqb k k' then (k, v) :: d' else (k', v') :: dict_set k v d'
  end.

Fixpoint dict_get (k : string) (d : dict) : option V :=
  match d with
  | [] => None
  | (k', v') :: d' => if String.eqb k k' then Some v' else dict_get k d'
  end.

(** [d[k]] *)
Definition dict_getitem (k : string) (d : dict) : result V :=
  match dict_get k d with
  | Some v => Ok v
  | None => Raise KeyError
  end.

Definition values (d : dict) : list V := map snd d.
End Dict.

Arguments dict V : clear implicits.

(** ** Sorting

    [sorted(l, key=...)] and [list.sort(key=...)] are stable: elements with
    equal keys keep their order.  A stable sort has one possible output, so
    the insertion sort below returns the list Python's sort returns. *)

Section Sorting.
Context {A : Type} (key : A -> Q).

Fixpoint insert_by (x : A) (l : list A) : list A :=
  match l with
  | [] => [x]
  | y :: l' =>
      if Qle_bool (key x) (key y) then x :: y :: l' else y :: insert_by x l'
  end.

Fixpoint sorted_by (l : list A) : list A :=
  match l with
  | [] => []
  | x :: l' => insert_by x (sorted_by l')
  end.
End Sorting.

Definition sorted (l : list Q) : list Q := sorted_by (fun x => x) l.

(** ** The parts of numpy the program uses *)

(** [np.arange(start, stop, step)]: [ceil((stop - start) / step)] points
    [start + i * step]; a zero step raises [ZeroDivisionError].  The
    quotient is exact here; in binary64 it is rounded before the ceiling
    is taken, which can add a point: [B64.arange]. *)
Definition arange (start stop step : Q) : result (list Q) :=
  n <- py_div (stop - start) step ;;
  Ok (map (fun i => start + inject_Z (Z.of_nat i) * step)
          (seq 0 (Z.to_nat (Qceiling n)))).

(** [np.linspace(start, stop, num)]: [num] evenly spaced points, both ends
    included. *)
Definition linspace (start stop : Q) (num : nat) : list Q :=
  match num with
  | O => []
  | S O => [start]
  | S (S _) =>
      let step := (stop - start) / inject_Z (Z.of_nat (num - 1)) in
      map (fun i => start + inject_Z (Z.of_nat i) * step) (seq 0 num)
  end.

(** [l[1:-1]] *)
Definition slice_1_m1 {A : Type} (l : list A) : list A := removelast (tl l).

(** ** The axes the program draws on *)

Record LogLocator : Type := {
  base : Q;
  subs : option (list Q);
  numticks : nat
}.

Record Line : Type := {
  line_x : list Q;
  line_y : list Q;
  line_fmt : string;
  linewidth : Q;
  label : option string;
  alpha : Q
}.

(** The state of an axes object that the program sets and that carries
    data: scale, tick locators, ticks and plotted lines.  Axis labels, the
    grid and the legend (lines 135-138) are styling and are left out. *)
Record Axes : Type := {
  yscale : string;
  yaxis_major_locator : option LogLocator;
  yaxis_minor_locator : option LogLocator;
  yaxis_minor_formatter_null : bool;
  xticks_minor : list Q;
  xticks_major : list Q;
  lines : list Line
}.

Definition new_axes : Axes := {|
  yscale := "linear";
  yaxis_major_locator := None;
  yaxis_minor_locator := None;
  yaxis_minor_formatter_null := false;
  xticks_minor := [];
  xticks_major := [];
  lines := []
|}.

Definition set_yscale (v : string) (ax : Axes) : Axes := {|
  yscale := v;
  yaxis_major_locator := yaxis_major_locator ax;
  yaxis_minor_locator := yaxis_minor_locator ax;
  yaxis_minor_formatter_null := yaxis_minor_formatter_null ax;
  xticks_minor := xticks_minor ax;
  xticks_major := xticks_major ax;
  lines := lines ax
|}.

(** [ax.set_xticks(ticks, minor=minor)] *)
Definition set_xticks (ticks : list Q) (minor : bool) (ax : Axes) : Axes := {|
  yscale := yscale ax;
  yaxis_major_locator := yaxis_major_locator ax;
  yaxis_minor_locator := yaxis_minor_locator ax;
  yaxis_minor_formatter_null := yaxis_minor_formatter_null ax;
  xticks_minor := if minor then ticks else xticks_minor ax;
  xticks_major := if minor then xticks_major ax else ticks;
  lines := lines ax
|}.

(** [ax.plot(...)]: one more line. *)
Definition plot (l : Line) (ax : Axes) : Axes := {|
  yscale := yscale ax;
  yaxis_major_locator := yaxis_major_locator ax;
  yaxis_minor_locator := yaxis_minor_locator ax;
  yaxis_minor_formatter_null := yaxis_minor_formatter_null ax;
  xticks_minor := xticks_minor ax;
  xticks_major := xticks_major ax;
  lines := lines ax ++ [l]
|}.

(** ** [restore_minor_ticks_log_plot] (lines 16-39)

    [gca] stands for pyplot's current axes, used when [ax] is [None]. *)

Definition n_subticks_default : nat := 9.

Definition restore_minor_ticks_log_plot
    (gca : Axes) (ax : option Axes) (n_subticks : nat) : Axes :=
  let ax := match ax with None => gca | Some ax => ax end in
  let locmaj := {| base := 10; subs := None; numticks := 1000 |} in
  let locmin :=
    {| base := 10;
       subs := Some (slice_1_m1 (linspace 0 1 (n_subticks + 2)));
       numticks := 1000 |} in
  {| yscale := yscale ax;
     yaxis_major_locator := Some locmaj;
     yaxis_minor_locator := Some locmin;
     yaxis_minor_formatter_null := true;
     xticks_minor := xticks_minor ax;
     xticks_major := xticks_major ax;
     lines := lines ax |}.

(** ** The outside world: the modules, the file system and the network

    [import_fails] is the exception that [import requests, json] (line 44)
    raises, when it does.  [read path] is the outcome of opening [path]
    for reading and reading it: its text, or the exception raised.
    [write_fails] is the exception that opening a file for writing raises,
    when it does.  [dump_fails] is the exception that writing into the
    opened file raises, when it does, with the number of characters that
    reached the file before.  [remote url] is the outcome of
    [requests.get(url)]: the body of the response, or the exception
    raised. *)

Record World : Type := {
  import_fails : option exn;
  read : string -> result string;
  write_fails : option exn;
  dump_fails : option (exn * nat);
  remote : string -> result string
}.

(** The world in which [path] holds [text]. *)
Definition set_file (path text : string) (w : World) : World := {|
  import_fails := import_fails w;
  read := fun p => if String.eqb p path then Ok text else read w p;
  write_fails := write_fails w;
  dump_fails := dump_fails w;
  remote := remote w
|}.

(** [with open(path, 'w') as f: json.dump(data, f, indent=4)], for the text
    [text] of the dump.  Opening truncates the file; a dump that raises
    leaves in it what it had written. *)
Definition write_file (path text : string) (w : World) : World * result unit :=
  match write_fails w with
  | Some e => (w, Raise e)
  | None =>
      match dump_fails w with
      | Some (e, n) => (set_file path (substring 0 n text) w, Raise e)
      | None => (set_file path text w, Ok tt)
      end
  end.

Definition fname : string := "planetary_factsheet.json".

Definition dataset_url : string :=
  "https://raw.githubusercontent.com/sempostma/planetary-factsheet/master/data.json".

(** ** [get_solar_system_data] (lines 42-53) *)

Section DataProvider.
(** Parsed JSON documents, [json.loads] and [json.dumps(_, indent=4)]. *)
Variable json : Type.
Variable json_loads : string -> result json.
Variable json_dumps : json -> string.

(** The body of the [try]: [with open(fname) as f: data = json.load(f)]. *)
Definition load_cache (w : World) : result json :=
  text <- read w fname ;; json_loads text.

(** [requests.get(url).json()] *)
Definition fetch_remote (w : World) : result json :=
  body <- remote w dataset_url ;; json_loads body.

Definition get_solar_system_data (w : World) : World * result json :=
  match import_fails w with
  | Some e => (w, Raise e)
  | None =>
      match load_cache w with
      | Ok data => (w, Ok data)
      | Raise _ =>
          (* bare [except:] catches every exception *)
          match fetch_remote w with
          | Raise e => (w, Raise e)
          | Ok data =>
              match write_file fname (json_dumps data) w with
              | (w', Raise e) => (w', Raise e)
              | (w', Ok _) => (w', Ok data)
              end
          end
      end
  end.
End DataProvider.

(** ** Bodies and curves *)

(** An entry of the dataset, for the three keys the program reads:
    [planet.get(key)] is [None] for a key that is missing or holds [null],
    and a number otherwise.  Entries that hold something else under these
    keys (a string, a list) are outside this type. *)
Record planet : Type := {
  mass10_24Kg : option Q;
  semimajorAxis10_6Km : option Q;
  volumetricMeanRadiusKm : option Q
}.

(** An entry of [data]: the keys ['M'], ['S'] and ['R']. *)
Record body : Type := {
  body_M : Q;
  body_S : Q;
  body_R : Q
}.

(** A sample is a pair (distance, magnitude); a curve is a list of them. *)
Definition curve : Type := list (Q * Q).

(** [x * c] for [x = planet.get(key)]: [None * c] raises [TypeError]. *)
Definition py_mul_opt (x : option Q) (c : Q) : result Q :=
  match x with
  | Some a => Ok (a * c)
  | None => Raise TypeError
  end.

(** ** [solar_system_gravitational_potential] (lines 56-139)

    A loop variable the source calls [S] is written [S_] where it is bound
    by a pattern. *)

(** The dict comprehension of lines 58-63. *)
Fixpoint data_comprehension
    (items : list (string * planet)) (data : dict body) : result (dict body) :=
  match items with
  | [] => Ok data
  | (name, pl) :: rest =>
      m <- py_mul_opt (mass10_24Kg pl) (10 ^ 24) ;;
      s <- py_mul_opt (semimajorAxis10_6Km pl) (10 ^ 9) ;;
      r <- py_mul_opt (volumetricMeanRadiusKm pl) (10 ^ 3) ;;
      data_comprehension rest
        (dict_set name {| body_M := m; body_S := s; body_R := r |} data)
  end.

Definition sun : body := {| body_M := M_sun; body_S := 0; body_R := R_sun |}.

(** Lines 58-68. *)
Definition build_data (all_data : dict planet) : result (dict body) :=
  data <- data_comprehension all_data [] ;;
  Ok (dict_set "sun" sun data).

(** The loop of lines 80-84 over the dense grid, appending to [c]. *)
Fixpoint dense_loop (p : body) (S_range : list Q) (c : curve) : result curve :=
  match S_range with
  | [] => Ok c
  | S_ :: rest =>
      phi_value <- neg_get_phi (body_M p) (body_R p) S_ ;;
      let c := c ++ [(body_S p + S_, phi_value)] in
      let c :=
        if Qltb 0 (body_S p - S_) then c ++ [(body_S p - S_, phi_value)] else c in
      dense_loop p rest c
  end.

(** The loop of lines 85-87 over the shared coarse grid, appending to [c]. *)
Fixpoint coarse_loop (p : body) (base_S_range : list Q) (c : curve)
    : result curve :=
  match base_S_range with
  | [] => Ok c
  | S_ :: rest =>
      phi_value <- neg_get_phi (body_M p) (body_R p) (Qabs (body_S p - S_)) ;;
      coarse_loop p rest (c ++ [(S_, phi_value)])
  end.

(** Line 79: the dense grid of a body. *)
Definition S_range_of (p : body) : result (list Q) :=
  let S_step := body_R p / 100 in
  let S_max := body_R p * 100 in
  arange 0 S_max S_step.

(** Lines 76-87: the curve of one body. *)
Definition body_curve (base_S_range : list Q) (p : body) : result curve :=
  S_range <- S_range_of p ;;
  c <- dense_loop p S_range [] ;;
  coarse_loop p base_S_range c.

(** Lines 75-87: the loop over [data.items()], filling [phi]. *)
Fixpoint body_loop (base_S_range : list Q) (items : list (string * body))
    (phi : dict curve) : result (dict curve) :=
  match items with
  | [] => Ok phi
  | (name, p) :: rest =>
      c <- body_curve base_S_range p ;;
      body_loop base_S_range rest (dict_set name c phi)
  end.

(** Lines 89-91. *)
Definition all_S_values (phi : dict curve) : list Q :=
  flat_map (fun val_list => map fst val_list) (values phi).

(** [sum(-get_phi(p['M'], p['R'], abs(p['S']-S)) for p in ...)], with the
    running total [acc] ([sum] starts from 0). *)
Fixpoint sum_phi (ps : list body) (S : Q) (acc : Q) : result Q :=
  match ps with
  | [] => Ok acc
  | p :: rest =>
      v <- neg_get_phi (body_M p) (body_R p) (Qabs (body_S p - S)) ;;
      sum_phi rest S (acc + v)
  end.

(** The list comprehension of line 92 over the sorted distances. *)
Fixpoint all_comprehension (data : dict body) (Ss : list Q) : result curve :=
  match Ss with
  | [] => Ok []
  | S_ :: rest =>
      v <- sum_phi (values data) S_ 0 ;;
      tl <- all_comprehension data rest ;;
      Ok ((S_, v) :: tl)
  end.

(** Lines 89-92: the value assigned to [phi['all']]. *)
Definition all_curve (data : dict body) (phi : dict curve) : result curve :=
  all_comprehension data (sorted (all_S_values phi)).

(** The local variables of the function after line 92. *)
Record locals : Type := {
  data : dict body;
  max_S : Q;
  AU : Q;
  S_bin : Q;
  base_S_range : list Q;
  phi : dict curve
}.

(** Lines 58-92: from the dataset to the curves. *)
Definition potential_curves (all_data : dict planet) : result locals :=
  data <- build_data all_data ;;
  m <- py_max (map body_S (values data)) ;;
  let max_S := m * (12 # 10) in
  hearth <- dict_getitem "earth" data ;;
  let AU := body_S hearth in
  let S_bin := max_S / 1000 in
  base_S_range <- arange 0 max_S S_bin ;;
  phi <- body_loop base_S_range data [] ;;
  all <- all_curve data phi ;;
  Ok {| data := data; max_S := max_S; AU := AU; S_bin := S_bin;
        base_S_range := base_S_range; phi := dict_set "all" all phi |}.

(** [translate] (lines 94-116): [None] for a name it does not know. *)
Definition translate (name : string) : option string :=
  if String.eqb name "all" then Some "Total"%string
  else if String.eqb name "sun" then Some "Sun"%string
  else if String.eqb name "earth" then Some "Earth"%string
  else if String.eqb name "mars" then Some "Mars"%string
  else if String.eqb name "pluto" then Some "Pluto"%string
  else if String.eqb name "mercury" then Some "Mercury"%string
  else if String.eqb name "venus" then Some "Venus"%string
  else if String.eqb name "jupiter" then Some "Jupiter"%string
  else if String.eqb name "saturn" then Some "Saturn"%string
  else if String.eqb name "uranus" then Some "Uranus"%string
  else if String.eqb name "neptune" then Some "Neptune"%string
  else None.

(** [[d[0]/AU for d in data]] *)
Fixpoint distances_in_AU (AU : Q) (c : curve) : result (list Q) :=
  match c with
  | [] => Ok []
  | d :: rest =>
      x <- py_div (fst d) AU ;;
      xs <- distances_in_AU AU rest ;;
      Ok (x :: xs)
  end.

(** The loop of lines 127-134.  [data.sort(...)] sorts the list held by
    [phi] in place, so [phi] is threaded through. *)
Fixpoint plot_loop (AU : Q) (names : list string) (phi : dict curve)
    (ax : Axes) : result (dict curve * Axes) :=
  match names with
  | [] => Ok (phi, ax)
  | name :: rest =>
      let alpha := if String.eqb name "all" then 1 else 7 # 10 in
      let line_width := if String.eqb name "all" then 15 # 10 else 1 in
      c <- dict_getitem name phi ;;
      let c := sorted_by fst c in
      let phi := dict_set name c phi in
      xs <- distances_in_AU AU c ;;
      let ax :=
        plot {| line_x := xs; line_y := map snd c; line_fmt := "-";
                linewidth := line_width; label := translate name;
                alpha := alpha |} ax in
      plot_loop AU rest phi ax
  end.

(** Lines 118-139: drawing the curves. *)
Definition render (st : locals) : result Axes :=
  let ax := new_axes in
  let ax := set_yscale "log" ax in
  let ax := restore_minor_ticks_log_plot ax (Some ax) n_subticks_default in
  n <- py_div (max_S st) (AU st) ;;
  let ax := set_xticks (py_range (py_int n)) true ax in
  n <- py_div (max_S st) (AU st) ;;
  ticks <- arange 0 (inject_Z (py_int n)) 5 ;;
  let ax := set_xticks ticks false ax in
  let planets_by_distance :=
    "all"%string :: map fst (sorted_by (fun x => body_S (snd x)) (data st)) in
  r <- plot_loop (AU st) planets_by_distance (phi st) ax ;;
  Ok (snd r).

Section Program.
Variable json_loads : string -> result (dict planet).
Variable json_dumps : dict planet -> string.

Definition solar_system_gravitational_potential (w : World)
    : World * result Axes :=
  match get_solar_system_data _ json_loads json_dumps w with
  | (w', Raise e) => (w', Raise e)
  | (w', Ok all_data) => (w', st <- potential_curves all_data ;; render st)
  end.
End Program.

(** ** What the loops compute, in closed form

    The definitions below are not in the source: they are the vocabulary in
    which the properties of its loops are stated. *)

(** Apply [f] to every element, in order, stopping at the first exception. *)
Fixpoint mapM {A B : Type} (f : A -> result B) (l : list A) : result (list B) :=
  match l with
  | [] => Ok []
  | x :: l' => y <- f x ;; ys <- mapM f l' ;; Ok (y :: ys)
  end.

(** The sum of a list of numbers. *)
Definition Qsum (l : list Q) : Q := fold_right Qplus 0 l.

(** The samples one offset of the dense grid contributes, given the
    magnitude [v] computed for it. *)
Definition dense_step (p : body) (Sv : Q * Q) : curve :=
  let (S_, v) := Sv in
  (body_S p + S_, v) ::
  (if Qltb 0 (body_S p - S_) then [(body_S p - S_, v)] else []).

(** The magnitude of body [p] at distance [d] from the Sun. *)
Definition magnitude_at (p : body) (d : Q) : result Q :=
  neg_get_phi (body_M p) (body_R p) (Qabs (body_S p - d)).

(** The points [0, step, 2*step, ...], [n] of them. *)
Definition grid (step : Q) (n : nat) : list Q :=
  map (fun i => 0 + inject_Z (Z.of_nat i) * step) (seq 0 n).

(** The order [sorted_by key] sorts into. *)
Definition key_le {A : Type} (key : A -> Q) (x y : A) : Prop := key x <= key y.

(** What a run that returns has computed, step by step. *)
Record run_facts (all_data : dict planet) (st : locals)
    (m : Q) (phi0 : dict curve) (allc : curve) : Prop := {
  rf_data : build_data all_data = Ok (data st);
  rf_max : py_max (map body_S (values (data st))) = Ok m;
  rf_max_S : max_S st = m * (12 # 10);
  rf_AU : exists hearth,
      dict_get "earth" (data st) = Some hearth /\ AU st = body_S hearth;
  rf_S_bin : S_bin st = max_S st / 1000;
  rf_base : arange 0 (max_S st) (S_bin st) = Ok (base_S_range st);
  rf_loop : body_loop (base_S_range st) (data st) [] = Ok phi0;
  rf_all : all_curve (data st) phi0 = Ok allc;
  rf_phi : phi st = dict_set "all" allc phi0
}.

(** ** Sample data

    The two-body system of the specification's scenario: the Earth, with
    the Sun the program adds; a world whose cache file is missing; and a
    small state for the renderer. *)

Definition earth_entry : planet := {|
  mass10_24Kg := Some (5972 # 1000);
  semimajorAxis10_6Km := Some (1496 # 10);
  volumetricMeanRadiusKm := Some 6371
|}.

Definition example_dataset : dict planet := [("earth"%string, earth_entry)].

Definition earth : body := {|
  body_M := (5972 # 1000) * 10 ^ 24;
  body_S := (1496 # 10) * 10 ^ 9;
  body_R := 6371 * 10 ^ 3
|}.

Definition example_data : dict body :=
  [("earth"%string, earth); ("sun"%string, sun)].

Definition example_world : World := {|
  import_fails := None;
  read := fun _ => Raise OSError;
  write_fails := None;
  dump_fails := None;
  remote := fun _ => Ok "{}"%string
|}.

Definition example_locals : locals := {|
  data := example_data;
  max_S := 12;
  AU := 10;
  S_bin := 12 # 1000;
  base_S_range := [0; 1];
  phi := [("earth"%string, [(1, 2); (0, 3)]);
          ("sun"%string, [(0, 5)]);
          ("all"%string, [(0, 8); (1, 7)])]
|}.

(** ** Vocabulary for the further properties

    Like the closed forms above, these definitions are not in the source. *)

(** The names [translate] knows. *)
Definition known_names : list string :=
  ["all"; "sun"; "earth"; "mars"; "pluto"; "mercury"; "venus";
   "jupiter"; "saturn"; "uranus"; "neptune"]%string.

(** The entry of [data] that one entry of the dataset yields (the value of
    the dict comprehension of lines 59-63). *)
Definition planet_body (pl : planet) : result body :=
  m <- py_mul_opt (mass10_24Kg pl) (10 ^ 24) ;;
  s <- py_mul_opt (semimajorAxis10_6Km pl) (10 ^ 9) ;;
  r <- py_mul_opt (volumetricMeanRadiusKm pl) (10 ^ 3) ;;
  Ok {| body_M := m; body_S := s; body_R := r |}.

(** The keys of a dict after [d[k] = v]: [k] goes last unless present. *)
Definition keys_after_set (k : string) (ks : list string) : list string :=
  if in_dec string_dec k ks then ks else ks ++ [k].

(** [l'] is [l] sorted by [key] the way Python sorts: in nondecreasing
    order of the keys, the elements with equal keys in the order they have
    in [l]. *)
Definition stable_sort_of {A : Type} (key : A -> Q) (l l' : list A) : Prop :=
  Permutation l' l /\
  StronglySorted (key_le key) l' /\
  forall q, filter (fun x => Qeq_bool (key x) q) l'
            = filter (fun x => Qeq_bool (key x) q) l.

(** The line [ax.plot] draws for the series [name] holding the curve [c]. *)
Definition drawn (AU : Q) (name : string) (c : curve) (l : Line) : Prop :=
  line_x l = map (fun d => fst d / AU) (sorted_by fst c) /\
  line_y l = map snd (sorted_by fst c) /\
  line_fmt l = "-"%string /\
  label l = translate name /\
  linewidth l = (if String.eqb name "all" then 15 # 10 else 1) /\
  alpha l = (if String.eqb name "all" then 1 else 7 # 10).

(** [phi] after some of its curves were sorted in place. *)
Definition sorted_in_place (phi0 phi : dict curve) : Prop :=
  forall k,
    dict_get k phi = dict_get k phi0 \/
    exists c, dict_get k phi0 = Some c /\
              dict_get k phi = Some (sorted_by fst c).

(** More sample data: datasets on which the sampler fails, and a parser
    and a printer for the sample world. *)

Definition mars_entry : planet := {|
  mass10_24Kg := Some (642 # 1000);
  semimajorAxis10_6Km := Some (2279 # 10);
  volumetricMeanRadiusKm := Some (33895 # 10)
|}.

Definition dataset_without_earth : dict planet := [("mars"%string, mars_entry)].

Definition dataset_at_origin : dict planet :=
  [("earth"%string,
    {| mass10_24Kg := Some (5972 # 1000);
       semimajorAxis10_6Km := Some 0;
       volumetricMeanRadiusKm := Some 6371 |})].


(** A dataset with a body whose orbital distance is negative, and the
    entry [data] gets for it. *)
Definition probe_entry : planet := {|
  mass10_24Kg := Some 1;
  semimajorAxis10_6Km := Some (-1);
  volumetricMeanRadiusKm := Some 1
|}.

Definition dataset_negative_orbit : dict planet :=
  [("earth"%string, earth_entry); ("probe"%string, probe_entry)].

Definition probe : body := {|
  body_M := 1 * 10 ^ 24;
  body_S := (-1) * 10 ^ 9;
  body_R := 1 * 10 ^ 3
|}.

Definition example_loads (text : string) : result (dict planet) :=
  if String.eqb text "{}" then Ok example_dataset else Raise JSONDecodeError.

Definition example_dumps (d : dict planet) : string := "{}".

(** The sample world with the cache file in place, and with a cache file
    that does not parse. *)
Definition example_world_cached : World :=
  set_file "planetary_factsheet.json" "{}" example_world.

Definition example_world_corrupt : World :=
  set_file "planetary_factsheet.json" "{" example_world.

(** ** The same arithmetic in binary64

    Python's [float] and numpy's [float64] are IEEE 754 binary64, which the
    primitive floats are.  This module repeats, from the same source lines,
    the pieces of the program whose outcome depends on rounding: [get_phi],
    [np.arange] and one step of the dense loop.  The flag [np] says that the
    operand [S] is a numpy scalar (as every [S] of the sampler is): numpy
    then carries out the operation and returns an infinity or a NaN where
    Python's own [float] raises. *)

Module B64.

Local Open Scope float_scope.

(** line 4 *)
Definition G : float := 7.4 * 1e-28.

(** [x ** n] for a literal exponent [n], by repeated multiplication; the
    product is the power itself wherever it is exact, as it is at the
    inputs evaluated below. *)
Fixpoint power (x : float) (n : nat) : float :=
  match n with
  | O => 1
  | S O => x
  | S n' => power x n' * x
  end.

Definition is_finite (x : float) : bool := negb (is_nan x || is_infinity x).

(** Python's [float ** int] raises [OverflowError] when a finite base gives
    an infinite result, and returns zero on underflow. *)
Definition pow (np : bool) (x : float) (n : nat) : result float :=
  let r := power x n in
  if negb np && is_finite x && is_infinity r then Raise OverflowError
  else Ok r.

(** Python's [float / float] raises on a zero divisor, of either sign. *)
Definition div (np : bool) (a b : float) : result float :=
  if negb np && (b =? 0) then Raise ZeroDivisionError else Ok (a / b).

(** lines 9-13, the operations in the order Python evaluates them *)
Definition get_phi (np : bool) (M R S : float) : result float :=
  if S <? R then
    s2 <- pow np S 2 ;;
    r2 <- pow false R 2 ;;
    r3 <- pow false R 3 ;;
    div np (G * M * (s2 - 3 * r2)) (2 * r3)
  else div np (- G * M) S.

(** The length numpy's [arange] computes from the quotient: its ceiling,
    [ValueError] for a NaN, [OverflowError] outside the index type. *)
Definition safe_ceil (x : float) : result Z :=
  match Prim2SF x with
  | S754_nan => Raise ValueError
  | S754_infinity _ => Raise OverflowError
  | S754_zero _ => Ok 0%Z
  | S754_finite s m e =>
      let n :=
        if (0 <=? e)%Z then
          (if s then - (Z.pos m * 2 ^ e) else Z.pos m * 2 ^ e)%Z
        else
          let d := (2 ^ (- e))%Z in
          let q := (Z.pos m / d)%Z in
          if s then (- q)%Z
          else if (Z.pos m mod d =? 0)%Z then q else (q + 1)%Z in
      if ((- 2 ^ 63 <=? n) && (n <? 2 ^ 63))%Z then Ok n
      else Raise OverflowError
  end.

Definition of_nat (i : nat) : float := of_uint63 (Uint63.of_Z (Z.of_nat i)).

(** [np.arange(start, stop, step)] on Python floats: the length is the
    ceiling of the Python quotient [(stop - start) / step]; the first two
    elements are [start] and [start + step], element [i] is
    [start + i * delta] for [delta] the difference of the first two. *)
Definition arange (start stop step : float) : result (list float) :=
  q <- div false (stop - start) step ;;
  n <- safe_ceil q ;;
  let next := start + step in
  let delta := next - start in
  Ok (map (fun i => match i with
                    | O => start
                    | S O => next
                    | _ => start + of_nat i * delta
                    end) (seq 0 (Z.to_nat n))).

(** lines 61-62 *)
Definition S_of (semimajorAxis10_6Km : float) : float :=
  semimajorAxis10_6Km * 1e9.

Definition R_of (volumetricMeanRadiusKm : float) : float :=
  volumetricMeanRadiusKm * 1e3.

(** line 69, for the largest [S] of the bodies *)
Definition max_S_of (largest : float) : float := largest * 1.2.

(** lines 72-73 *)
Definition base_S_range_of (max_S : float) : result (list float) :=
  S_bin <- div false max_S 1000 ;;
  arange 0 max_S S_bin.

(** lines 77-79 *)
Definition S_range_of (R : float) : result (list float) :=
  S_step <- div false R 100 ;;
  arange 0 (R * 100) S_step.

(** lines 81-84: the samples one offset [S] of the dense grid adds *)
Definition dense_step (pM pS pR S : float) : result (list (float * float)) :=
  v <- get_phi true pM pR S ;;
  let phi_value := - v in
  Ok ((pS + S, phi_value)
        :: if 0 <? pS - S then [(pS - S, phi_value)] else []).

(** [-get_phi(p['M'], p['R'], abs(p['S'] - d))] for a sampled [d] *)
Definition magnitude_at (pM pS pR d : float) : result float :=
  v <- get_phi true pM pR (abs (pS - d)) ;;
  Ok (- v).

End B64.

(** * Properties *)

(** ** The definitions at concrete inputs *)

(** At the centre of the Sun the magnitude is 1.5*G*M/R. *)
Example magnitude_at_sun_centre :
  req (neg_get_phi M_sun R_sun 0) (Ok ((15 # 10) * G * M_sun / R_sun)).
Proof. vm_compute. reflexivity. Qed.

(** Outside the body the point-mass formula applies; at the surface both
    formulas give the same number. *)
Example magnitude_at_sun_surface :
  req (phi_inside M_sun R_sun R_sun) (get_phi M_sun R_sun R_sun).
Proof. vm_compute. reflexivity. Qed.

Example get_phi_zero_radius : get_phi 1 0 0 = Raise ZeroDivisionError.
Proof. reflexivity. Qed.

Example arange_stops_before : arange 0 9 3 = Ok [0; 3; 6].
Proof. reflexivity. Qed.

Example arange_rounds_up : arange 0 10 3 = Ok [0; 3; 6; 9].
Proof. reflexivity. Qed.

Example arange_zero_step : arange 0 1 0 = Raise ZeroDivisionError.
Proof. reflexivity. Qed.

Example sorted_is_stable :
  sorted [3; 1; 2; 1 # 2; 2 # 4] = [1 # 2; 2 # 4; 1; 2; 3].
Proof. reflexivity. Qed.

Example dict_set_replaces_in_place :
  dict_set "a" 3%nat [("a"%string, 1%nat); ("b"%string, 2%nat)]
  = [("a"%string, 3%nat); ("b"%string, 2%nat)].
Proof. reflexivity. Qed.

Example build_data_adds_sun : build_data example_dataset = Ok example_data.
Proof. reflexivity. Qed.

Example build_data_missing_key :
  build_data [("moon"%string,
               {| mass10_24Kg := None; semimajorAxis10_6Km := Some 1;
                  volumetricMeanRadiusKm := Some 1 |})]
  = Raise TypeError.
Proof. reflexivity. Qed.

(** The specification's scenario: at [d = 0] the total is the magnitude of
    the Sun at its centre plus that of the Earth, as a point mass, at its
    orbital distance. *)
Example total_at_origin :
  exists v a b,
    sum_phi (values example_data) 0 0 = Ok v /\
    neg_get_phi M_sun R_sun 0 = Ok a /\
    phi_outside (body_M earth) (body_S earth) = Ok b /\
    v == a + - b.
Proof.
  do 3 eexists. split; [|split; [|split]]; [vm_compute; reflexivity ..|].
  vm_compute. reflexivity.
Qed.

(** A negative orbital offset is dropped by the guard of line 83: the Sun,
    at [S = 0], gets one sample per offset, and a body further out gets
    two, also at the offset 0. *)
Example sun_dense_samples :
  exists c, dense_loop sun [0; 7000000] [] = Ok c /\ map fst c = [0 + 0; 0 + 7000000].
Proof. eexists. split; [vm_compute; reflexivity|]. reflexivity. Qed.

Example earth_dense_samples :
  exists c, dense_loop earth [0; 63710] [] = Ok c /\
            Forall2 Qeq (map fst c)
              [149600000000; 149600000000; 149600063710; 149599936290].
Proof.
  eexists. split; [vm_compute; reflexivity|].
  repeat (constructor; [reflexivity|]). constructor.
Qed.

(** ** Comparisons and division *)

Lemma Qltb_lt a b : Qltb a b = true <-> a < b.
Proof. unfold Qltb, Qlt. apply Z.ltb_lt. Qed.

Lemma Qltb_ge a b : Qltb a b = false <-> b <= a.
Proof. unfold Qltb, Qle. rewrite Z.ltb_ge. reflexivity. Qed.

Lemma py_div_ok a b : ~ b == 0 -> py_div a b = Ok (a / b).
Proof.
  intros Hb. unfold py_div. destruct (Qeq_bool b 0) eqn:E; [|reflexivity].
  apply Qeq_bool_eq in E. contradiction.
Qed.

Lemma py_div_zero a b : b == 0 -> py_div a b = Raise ZeroDivisionError.
Proof. intros Hb. unfold py_div. now rewrite (Qeq_eq_bool _ _ Hb). Qed.

Lemma G_value : G == 74 # 10 ^ 29.
Proof. reflexivity. Qed.

(** C2.  Whenever [get_phi M R S] returns, the value is the specification's
    piecewise formula for G = 7.4e-28: G*M*(S^2 - 3*R^2) / (2*R^3) when
    [S < R], and -G*M/S when [S >= R]. *)
Theorem get_phi_formula (M R S v : Q) :
  get_phi M R S = Ok v ->
  v == potential_spec M R S /\
  (S < R -> v == (74 # 10 ^ 29) * M * (S * S - 3 * (R * R)) / (2 * (R * R * R))) /\
  (R <= S -> v == - ((74 # 10 ^ 29) * M / S)).
Proof.
  intros H.
  assert (Hs : v == potential_spec M R S).
  { revert H. unfold potential_spec, get_phi.
    destruct (Qlt_le_dec S R) as [Hlt|Hge].
    - apply Qltb_lt in Hlt. rewrite Hlt. unfold phi_inside, py_div.
      destruct (Qeq_bool (2 * R ^ 3) 0) eqn:E; [discriminate|].
      intros [= <-]. apply Qeq_bool_neq in E. rewrite G_value. field.
      intros H0. apply E. rewrite H0. reflexivity.
    - apply Qltb_ge in Hge. rewrite Hge. unfold phi_outside, py_div.
      destruct (Qeq_bool S 0) eqn:E; [discriminate|].
      intros [= <-]. apply Qeq_bool_neq in E. rewrite G_value. field.
      exact E. }
  split; [exact Hs|]. unfold potential_spec in Hs.
  destruct (Qlt_le_dec S R) as [Hlt|Hge]; split; intros H'.
  - exact Hs.
  - exfalso. apply (Qlt_irrefl S). eapply Qlt_le_trans; eassumption.
  - exfalso. apply (Qlt_irrefl S). eapply Qlt_le_trans; eassumption.
  - exact Hs.
Qed.

Lemma get_phi_inside_val M R S :
  S < R -> ~ R == 0 ->
  get_phi M R S = Ok (G * M * (S ^ 2 - 3 * (R ^ 2)) / (2 * (R ^ 3))).
Proof.
  intros Hlt HR. unfold get_phi. apply Qltb_lt in Hlt. rewrite Hlt.
  unfold phi_inside. apply py_div_ok.
  intros H0. apply HR.
  assert (H3 : R * R * R == 0).
  { setoid_replace (R * R * R) with ((2 * R ^ 3) / 2) by field.
    rewrite H0. reflexivity. }
  destruct (Qmult_integral _ _ H3) as [H2|]; [|assumption].
  destruct (Qmult_integral _ _ H2); assumption.
Qed.

Lemma get_phi_outside_val M R S :
  R <= S -> ~ S == 0 -> get_phi M R S = Ok (- G * M / S).
Proof.
  intros Hge HS. unfold get_phi. apply Qltb_ge in Hge. rewrite Hge.
  unfold phi_outside. now apply py_div_ok.
Qed.

Lemma small_product_lt (K t D eps : Q) :
  0 <= K -> 0 <= t -> t < D -> D * (K + 1) == eps -> K * t < eps.
Proof. intros. nra. Qed.

Lemma Qabs_scaled_lt (c t D eps : Q) :
  0 <= t -> t < D -> D * (Qabs c + 1) == eps -> Qabs (c * t) < eps.
Proof.
  intros Ht HtD HD. rewrite Qabs_Qmult, (Qabs_pos t) by exact Ht.
  apply (small_product_lt _ _ D); auto. apply Qabs_nonneg.
Qed.

Lemma outside_gap M R S :
  0 < R -> R <= S ->
  - G * M / S - - G * M / R == (G * M) * ((S - R) / (S * R)).
Proof. intros. field. split; lra. Qed.

Lemma inside_gap M R S :
  0 < R ->
  G * M * (S ^ 2 - 3 * (R ^ 2)) / (2 * (R ^ 3)) - - G * M / R
  == (- (G * M)) * ((R - S) * (R + S) / (2 * (R * R * R))).
Proof. intros. field. lra. Qed.

Lemma outside_ratio_small R S D :
  0 < R -> R <= S -> S - R < D * R * R ->
  0 <= (S - R) / (S * R) /\ (S - R) / (S * R) < D.
Proof.
  intros HR HS Hd.
  assert (Hpos : 0 < S * R) by nra.
  split.
  - apply Qle_shift_div_l; [exact Hpos|]. lra.
  - apply Qlt_shift_div_r; [exact Hpos|].
    assert (HD : 0 <= D).
    { destruct (Qlt_le_dec D 0) as [Hneg|]; [|assumption]. exfalso.
      assert (0 <= (- D) * (R * R)) by (apply Qmult_le_0_compat; nra). lra. }
    assert (0 <= (D * R) * (S - R)).
    { apply Qmult_le_0_compat; [apply Qmult_le_0_compat|]; lra. }
    lra.
Qed.

Lemma inside_ratio_small R S D :
  0 < R -> 0 < S -> S < R -> R - S < D * R * R ->
  0 <= (R - S) * (R + S) / (2 * (R * R * R)) /\
  (R - S) * (R + S) / (2 * (R * R * R)) < D.
Proof.
  intros HR HS HSR Hd.
  assert (Hpos : 0 < 2 * (R * R * R)).
  { repeat apply Qmult_lt_0_compat; lra. }
  split.
  - apply Qle_shift_div_l; [exact Hpos|]. nra.
  - apply Qlt_shift_div_r; [exact Hpos|].
    assert (HD : 0 <= D).
    { destruct (Qlt_le_dec D 0) as [Hneg|]; [|assumption]. exfalso.
      assert (0 <= (- D) * (R * R)) by (apply Qmult_le_0_compat; nra). lra. }
    assert (H1 : (R - S) * (R + S) <= (R - S) * (2 * R)).
    { apply Qmult_le_l; lra. }
    assert (H2 : (R - S) * (2 * R) < (D * R * R) * (2 * R)).
    { apply Qmult_lt_r; lra. }
    lra.
Qed.

Lemma get_phi_near_R M R S D eps :
  0 < R -> D * (Qabs (G * M) + 1) == eps ->
  Qabs (S - R) < R -> Qabs (S - R) < D * R * R ->
  exists v, get_phi M R S = Ok v /\ Qabs (v - - G * M / R) < eps.
Proof.
  intros HR HD HdR HdD.
  apply Qabs_Qlt_condition in HdR. apply Qabs_Qlt_condition in HdD.
  destruct (Qlt_le_dec S R) as [Hlt|Hge].
  - eexists; split; [apply get_phi_inside_val; lra|].
    rewrite (inside_gap M R S HR).
    destruct (inside_ratio_small R S D) as [H0 H1]; try lra.
    rewrite <- Qabs_opp.
    setoid_replace (- (- (G * M) * ((R - S) * (R + S) / (2 * (R * R * R)))))
      with ((G * M) * ((R - S) * (R + S) / (2 * (R * R * R)))) by ring.
    now apply (Qabs_scaled_lt _ _ D).
  - eexists; split; [apply get_phi_outside_val; lra|].
    rewrite (outside_gap M R S HR Hge).
    destruct (outside_ratio_small R S D) as [H0 H1]; try lra.
    now apply (Qabs_scaled_lt _ _ D).
Qed.

(** C3.  For [R > 0], [get_phi M R] is continuous at [S = R]: there the
    expression of the inside branch and that of the outside branch both
    return -G*M/R, and the values of [get_phi M R S] come as close to
    [get_phi M R R] as wanted once [S] is close enough to [R], from either
    side. *)
Theorem get_phi_continuous_at_R (M R : Q) :
  0 < R ->
  (exists a b, phi_inside M R R = Ok a /\ phi_outside M R = Ok b /\
               a == b /\ b == - (G * M / R)) /\
  (exists v0, get_phi M R R = Ok v0 /\
     forall eps, 0 < eps ->
     exists delta, 0 < delta /\
       forall S, Qabs (S - R) < delta ->
       exists v, get_phi M R S = Ok v /\ Qabs (v - v0) < eps).
Proof.
  intros HR. split.
  - exists (G * M * (R ^ 2 - 3 * (R ^ 2)) / (2 * (R ^ 3))), (- G * M / R).
    repeat split.
    + unfold phi_inside. apply py_div_ok.
      intros H0. assert (0 < 2 * R ^ 3); [|lra].
      setoid_replace (2 * R ^ 3) with (2 * (R * R * R)) by ring.
      repeat apply Qmult_lt_0_compat; lra.
    + unfold phi_outside. apply py_div_ok. lra.
    + field. lra.
    + field. lra.
  - exists (- G * M / R). split; [apply get_phi_outside_val; lra|].
    intros eps Heps.
    set (K := Qabs (G * M) + 1).
    assert (HK : 0 < K) by (unfold K; pose proof (Qabs_nonneg (G * M)); lra).
    set (D := eps / K).
    assert (HD : 0 < D) by (apply Qlt_shift_div_l; lra).
    assert (HDK : D * (Qabs (G * M) + 1) == eps) by (unfold D; fold K; field; lra).
    assert (HDR : 0 < D * R * R) by (apply Qmult_lt_0_compat; [apply Qmult_lt_0_compat|]; assumption).
    destruct (Qlt_le_dec R (D * R * R)) as [Hmin|Hmin].
    + exists R. split; [exact HR|]. intros S HS.
      apply (get_phi_near_R M R S D eps); auto. lra.
    + exists (D * R * R). split; [exact HDR|]. intros S HS.
      apply (get_phi_near_R M R S D eps); auto. lra.
Qed.

(** ** Results *)

Lemma bind_Ok {A B : Type} (r : result A) (k : A -> result B) (b : B) :
  bind r k = Ok b -> exists a, r = Ok a /\ k a = Ok b.
Proof. destruct r as [a|e]; simpl; [eauto | discriminate]. Qed.

Ltac inv_bind_fresh H :=
  let a := fresh "a" in
  let Ha := fresh "Ha" in
  apply bind_Ok in H; destruct H as (a & Ha & H).

Tactic Notation "inv_bind" hyp(H) := inv_bind_fresh H.

Tactic Notation "inv_bind" hyp(H) "as" ident(a) ident(Ha) :=
  apply bind_Ok in H; destruct H as (a & Ha & H).

Section MapM.
Context {A B : Type} (f : A -> result B).

Lemma mapM_Forall2 l ys :
  mapM f l = Ok ys -> Forall2 (fun x y => f x = Ok y) l ys.
Proof.
  revert ys. induction l as [|x l IH]; simpl; intros ys H.
  - injection H as <-. constructor.
  - inv_bind H. inv_bind H. injection H as <-. constructor; auto.
Qed.

Lemma mapM_total l :
  (forall x, In x l -> exists y, f x = Ok y) -> exists ys, mapM f l = Ok ys.
Proof.
  induction l as [|x l IH]; simpl; intros H; [eauto|].
  destruct (H x) as [y Hy]; [auto|]. rewrite Hy. simpl.
  destruct IH as [ys Hys]; [auto|]. rewrite Hys. simpl. eauto.
Qed.
End MapM.

Lemma Forall2_combine_In {A B : Type} (P : A -> B -> Prop) l ys x y :
  Forall2 P l ys -> In (x, y) (combine l ys) -> In x l /\ P x y.
Proof.
  induction 1 as [|a b l ys Hab _ IH]; simpl; [tauto|].
  intros [E|Hin]; [injection E as <- <-; auto | destruct (IH Hin); auto].
Qed.

Lemma Forall2_In_combine {A B : Type} (P : A -> B -> Prop) l ys x :
  Forall2 P l ys -> In x l -> exists y, In (x, y) (combine l ys) /\ P x y.
Proof.
  induction 1 as [|a b l ys Hab _ IH]; simpl; [tauto|].
  intros [<-|Hin]; [eauto|]. destruct (IH Hin) as (y & ? & ?). eauto.
Qed.

Lemma Forall2_map_fst_combine {A B : Type} (P : A -> B -> Prop) l ys :
  Forall2 P l ys -> map fst (combine l ys) = l.
Proof. induction 1; simpl; congruence. Qed.

(** ** The loops, in closed form *)

Lemma dense_loop_closed p S_range c :
  dense_loop p S_range c =
  (vs <- mapM (neg_get_phi (body_M p) (body_R p)) S_range ;;
   Ok (c ++ flat_map (dense_step p) (combine S_range vs))).
Proof.
  revert c. induction S_range as [|S_ rest IH]; intros c; simpl.
  - now rewrite app_nil_r.
  - destruct (neg_get_phi (body_M p) (body_R p) S_) as [v|e]; simpl; [|reflexivity].
    rewrite IH.
    destruct (mapM (neg_get_phi (body_M p) (body_R p)) rest) as [vs|e]; simpl;
      [|reflexivity].
    f_equal. destruct (Qltb 0 (body_S p - S_)); now rewrite <- !app_assoc.
Qed.

Lemma coarse_loop_closed p base c :
  coarse_loop p base c =
  (vs <- mapM (magnitude_at p) base ;; Ok (c ++ combine base vs)).
Proof.
  revert c. induction base as [|S_ rest IH]; intros c; simpl.
  - now rewrite app_nil_r.
  - unfold magnitude_at at 1.
    destruct (neg_get_phi _ _ _) as [v|e]; simpl; [|reflexivity].
    rewrite IH. destruct (mapM (magnitude_at p) rest) as [vs|e]; simpl;
      [|reflexivity].
    now rewrite <- app_assoc.
Qed.

Lemma sum_phi_closed ps d acc :
  sum_phi ps d acc =
  (ws <- mapM (fun p => magnitude_at p d) ps ;; Ok (fold_left Qplus ws acc)).
Proof.
  revert acc. induction ps as [|p rest IH]; intros acc; simpl; [reflexivity|].
  unfold magnitude_at at 1.
  destruct (neg_get_phi _ _ _) as [v|e]; simpl; [|reflexivity].
  rewrite IH. destruct (mapM _ rest) as [ws|e]; reflexivity.
Qed.

Lemma all_comprehension_closed data Ss :
  all_comprehension data Ss =
  (vs <- mapM (fun d => sum_phi (values data) d 0) Ss ;; Ok (combine Ss vs)).
Proof.
  induction Ss as [|S_ rest IH]; simpl; [reflexivity|].
  destruct (sum_phi (values data) S_ 0) as [v|e]; simpl; [|reflexivity].
  rewrite IH. destruct (mapM _ rest) as [vs|e]; reflexivity.
Qed.

Lemma fold_left_Qplus ws acc : fold_left Qplus ws acc == acc + Qsum ws.
Proof.
  revert acc. induction ws as [|w ws IH]; intros acc; simpl.
  - ring.
  - rewrite IH. ring.
Qed.

(** ** Dictionaries *)

Section DictFacts.
Context {V : Type}.
Implicit Types (d : dict V) (k : string) (v : V).

Lemma dict_set_fresh k v d :
  ~ In k (map fst d) -> dict_set k v d = d ++ [(k, v)].
Proof.
  induction d as [|[k' v'] d IH]; simpl; intros Hk; [reflexivity|].
  destruct (String.eqb_spec k k') as [->|_]; [tauto|].
  rewrite IH; tauto.
Qed.

Lemma dict_set_keys k v d :
  forall k', In k' (map fst (dict_set k v d)) <-> k' = k \/ In k' (map fst d).
Proof.
  induction d as [|[k0 v0] d IH]; simpl; intros k'.
  - intuition.
  - destruct (String.eqb_spec k k0) as [->|Hne]; simpl.
    + intuition.
    + rewrite IH. intuition.
Qed.

Lemma dict_set_NoDup k v d :
  NoDup (map fst d) -> NoDup (map fst (dict_set k v d)).
Proof.
  induction d as [|[k0 v0] d IH]; simpl; intros Hd.
  - constructor; [tauto | constructor].
  - inversion Hd as [|? ? Hk0 Hd']; subst.
    destruct (String.eqb_spec k k0) as [->|Hne]; simpl.
    + constructor; assumption.
    + constructor; [|auto]. rewrite dict_set_keys. intros [E|Hin]; auto.
Qed.

Lemma dict_set_In k v d k' v' :
  In (k', v') (dict_set k v d) -> (k' = k /\ v' = v) \/ In (k', v') d.
Proof.
  induction d as [|[k0 v0] d IH]; simpl.
  - intros [E|[]]. injection E as <- <-. auto.
  - destruct (String.eqb_spec k k0) as [->|Hne]; simpl.
    + intros [E|Hin]; [injection E as <- <-|]; auto.
    + intros [E|Hin]; [auto|]. destruct (IH Hin); auto.
Qed.

Lemma dict_get_set_same k v d : dict_get k (dict_set k v d) = Some v.
Proof.
  induction d as [|[k0 v0] d IH]; simpl.
  - now rewrite String.eqb_refl.
  - destruct (String.eqb_spec k k0) as [->|Hne]; simpl.
    + now rewrite String.eqb_refl.
    + destruct (String.eqb_spec k k0); [contradiction | exact IH].
Qed.

Lemma dict_get_In k v d : dict_get k d = Some v -> In (k, v) d.
Proof.
  induction d as [|[k0 v0] d IH]; simpl; [discriminate|].
  destruct (String.eqb_spec k k0) as [->|_].
  - intros E. injection E as <-. auto.
  - auto.
Qed.

Lemma In_dict_get k v d :
  NoDup (map fst d) -> In (k, v) d -> dict_get k d = Some v.
Proof.
  induction d as [|[k0 v0] d IH]; simpl; [tauto|].
  intros Hd [E|Hin]; inversion Hd as [|? ? Hk0 Hd']; subst.
  - injection E as -> ->. now rewrite String.eqb_refl.
  - destruct (String.eqb_spec k k0) as [->|_]; [|auto].
    exfalso. apply Hk0. apply (in_map fst) in Hin. exact Hin.
Qed.
End DictFacts.

(** Filling a dict, entry by entry, from items whose keys are distinct
    yields those entries in order. *)
Lemma fold_dict_set_fresh {V : Type} (kvs : list (string * V)) (d : dict V) :
  NoDup (map fst d ++ map fst kvs) ->
  fold_left (fun acc kv => dict_set (fst kv) (snd kv) acc) kvs d = d ++ kvs.
Proof.
  revert d. induction kvs as [|[k v] kvs IH]; intros d Hnd; simpl.
  - now rewrite app_nil_r.
  - rewrite dict_set_fresh.
    + rewrite IH; [now rewrite <- app_assoc|].
      rewrite map_app. simpl. rewrite <- app_assoc. exact Hnd.
    + simpl in Hnd. apply NoDup_remove_2 in Hnd.
      intros Hin. apply Hnd. apply in_or_app. auto.
Qed.

Lemma body_loop_closed base items phi :
  body_loop base items phi =
  (cs <- mapM (body_curve base) (map snd items) ;;
   Ok (fold_left (fun acc kv => dict_set (fst kv) (snd kv) acc)
                 (combine (map fst items) cs) phi)).
Proof.
  revert phi. induction items as [|[name p] rest IH]; intros phi; simpl;
    [reflexivity|].
  destruct (body_curve base p) as [c|e]; simpl; [|reflexivity].
  rewrite IH. destruct (mapM _ (map snd rest)) as [cs|e]; reflexivity.
Qed.

Lemma zip_keys_curves {A B : Type} (P : A -> B -> Prop)
    (items : list (string * A)) (cs : list B) :
  Forall2 P (map snd items) cs ->
  map fst (combine (map fst items) cs) = map fst items /\
  Forall2 (fun kp kc => fst kc = fst kp /\ P (snd kp) (snd kc))
          items (combine (map fst items) cs).
Proof.
  revert cs. induction items as [|[k a] items IH]; simpl; intros cs H.
  - split; constructor.
  - inversion H as [|? c ? cs' Hac Hrest]; subst. simpl.
    destruct (IH cs' Hrest) as [Hk Hf]. split; [now rewrite Hk|].
    constructor; auto.
Qed.

Lemma body_loop_entries base items phi0 :
  NoDup (map fst items) ->
  body_loop base items [] = Ok phi0 ->
  map fst phi0 = map fst items /\
  Forall2 (fun kp kc => fst kc = fst kp /\ body_curve base (snd kp) = Ok (snd kc))
          items phi0.
Proof.
  intros Hnd H. rewrite body_loop_closed in H. inv_bind H.
  injection H as <-. apply mapM_Forall2 in Ha.
  destruct (zip_keys_curves _ items a Ha) as [Hk Hf].
  rewrite fold_dict_set_fresh; simpl; [auto|]. now rewrite Hk.
Qed.

Lemma Forall2_In_l {A B : Type} (P : A -> B -> Prop) l l' x :
  Forall2 P l l' -> In x l -> exists y, In y l' /\ P x y.
Proof.
  induction 1 as [|a b l l' Hab _ IH]; simpl; [tauto|].
  intros [<-|Hin]; [eauto|]. destruct (IH Hin) as (y & ? & ?). eauto.
Qed.

Lemma Forall2_In_r {A B : Type} (P : A -> B -> Prop) l l' y :
  Forall2 P l l' -> In y l' -> exists x, In x l /\ P x y.
Proof.
  induction 1 as [|a b l l' Hab _ IH]; simpl; [tauto|].
  intros [<-|Hin]; [eauto|]. destruct (IH Hin) as (x & ? & ?). eauto.
Qed.

(** ** Sorting *)

Section SortingFacts.
Context {A : Type} (key : A -> Q).

Lemma insert_by_perm x l : Permutation (insert_by key x l) (x :: l).
Proof.
  induction l as [|y l IH]; simpl; [reflexivity|].
  destruct (Qle_bool (key x) (key y)); [reflexivity|].
  rewrite IH. apply perm_swap.
Qed.

Lemma sorted_by_perm l : Permutation (sorted_by key l) l.
Proof.
  induction l as [|x l IH]; simpl; [reflexivity|].
  rewrite insert_by_perm. now constructor.
Qed.

Lemma insert_by_sorted x l :
  StronglySorted (key_le key) l -> StronglySorted (key_le key) (insert_by key x l).
Proof.
  induction 1 as [|y l Hs IH Hall]; simpl.
  - repeat constructor.
  - destruct (Qle_bool (key x) (key y)) eqn:E.
    + apply Qle_bool_iff in E. constructor; [now constructor|].
      constructor; [exact E|].
      eapply Forall_impl; [|exact Hall]. intros z Hz.
      unfold key_le in *. eapply Qle_trans; eauto.
    + constructor; [exact IH|].
      assert (Hyx : key y <= key x).
      { destruct (Qlt_le_dec (key y) (key x)) as [Hlt|Hle].
        - now apply Qlt_le_weak.
        - apply Qle_bool_iff in Hle. congruence. }
      eapply Permutation_Forall; [symmetry; apply insert_by_perm|].
      constructor; assumption.
Qed.

Lemma sorted_by_sorted l : StronglySorted (key_le key) (sorted_by key l).
Proof.
  induction l as [|x l IH]; simpl; [constructor|].
  now apply insert_by_sorted.
Qed.
Lemma insert_by_filter x l q :
  filter (fun y => Qeq_bool (key y) q) (insert_by key x l)
  = filter (fun y => Qeq_bool (key y) q) (x :: l).
Proof.
  induction l as [|y l IH]; [reflexivity|]. cbn [insert_by].
  destruct (Qle_bool (key x) (key y)) eqn:E; [reflexivity|].
  cbn [filter] in *. rewrite IH.
  destruct (Qeq_bool (key y) q) eqn:Ey, (Qeq_bool (key x) q) eqn:Ex;
    try reflexivity.
  exfalso. apply Qeq_bool_iff in Ey, Ex.
  assert (H : Qle_bool (key x) (key y) = true)
    by (apply Qle_bool_iff; rewrite Ex, Ey; apply Qle_refl).
  congruence.
Qed.

Lemma sorted_by_filter l q :
  filter (fun y => Qeq_bool (key y) q) (sorted_by key l)
  = filter (fun y => Qeq_bool (key y) q) l.
Proof.
  induction l as [|x l IH]; [reflexivity|]. cbn [sorted_by].
  rewrite insert_by_filter. cbn [filter]. now rewrite IH.
Qed.

Lemma sorted_by_stable l : stable_sort_of key l (sorted_by key l).
Proof.
  split; [apply sorted_by_perm|]. split; [apply sorted_by_sorted|].
  intros q. apply sorted_by_filter.
Qed.

End SortingFacts.

Lemma sorted_perm l : Permutation (sorted l) l.
Proof. apply sorted_by_perm. Qed.

Lemma sorted_sorted l : StronglySorted Qle (sorted l).
Proof. apply (sorted_by_sorted (fun x => x)). Qed.

(** ** [arange], [max] and the grids *)

Lemma py_div_Ok_inv a b q : py_div a b = Ok q -> ~ b == 0 /\ q = a / b.
Proof.
  unfold py_div. destruct (Qeq_bool b 0) eqn:E; [discriminate|].
  intros H. injection H as <-. split; [|reflexivity].
  now apply Qeq_bool_neq.
Qed.

Lemma arange_from_0 stop step :
  ~ step == 0 ->
  arange 0 stop step =
  Ok (grid step (Z.to_nat (Qceiling ((stop - 0) / step)))).
Proof. intros H. unfold arange. now rewrite py_div_ok. Qed.

Lemma arange_Ok_inv start stop step l :
  arange start stop step = Ok l -> ~ step == 0.
Proof.
  unfold arange. intros H. inv_bind H. now apply py_div_Ok_inv in Ha.
Qed.

Lemma arange_count stop step (n : Z) :
  ~ step == 0 -> stop == inject_Z n * step ->
  arange 0 stop step = Ok (grid step (Z.to_nat n)).
Proof.
  intros Hs Hn. rewrite arange_from_0 by exact Hs.
  assert (E : (stop - 0) / step == inject_Z n) by (rewrite Hn; field; exact Hs).
  rewrite E, Qceiling_Z. reflexivity.
Qed.

Lemma In_grid step n x :
  In x (grid step n) ->
  exists i : nat, (i < n)%nat /\ x = 0 + inject_Z (Z.of_nat i) * step.
Proof.
  unfold grid. rewrite in_map_iff. intros (i & <- & Hi).
  apply in_seq in Hi. exists i. split; [lia | reflexivity].
Qed.

Lemma grid_bounds step (n : Z) x :
  0 < step -> In x (grid step (Z.to_nat n)) ->
  0 <= x /\ x < inject_Z n * step.
Proof.
  intros Hs Hx. apply In_grid in Hx. destruct Hx as (i & Hi & ->).
  assert (H0 : 0 <= inject_Z (Z.of_nat i)).
  { change 0 with (inject_Z 0). rewrite <- Zle_Qle. lia. }
  assert (H1 : inject_Z (Z.of_nat i) < inject_Z n).
  { rewrite <- Zlt_Qlt. lia. }
  split.
  - assert (0 <= inject_Z (Z.of_nat i) * step)
      by (apply Qmult_le_0_compat; lra). lra.
  - assert (inject_Z (Z.of_nat i) * step < inject_Z n * step)
      by (apply Qmult_lt_r; assumption). lra.
Qed.

Lemma length_grid step n : List.length (grid step n) = n.
Proof. unfold grid. now rewrite length_map, length_seq. Qed.

Lemma grid_nth step n k :
  (k < n)%nat ->
  exists x, nth_error (grid step n) k = Some x /\
            x == inject_Z (Z.of_nat k) * step.
Proof.
  intros Hk. exists (0 + inject_Z (Z.of_nat k) * step). split; [|ring].
  unfold grid. rewrite nth_error_map.
  rewrite (nth_error_nth' _ 0%nat) by (rewrite length_seq; exact Hk).
  rewrite seq_nth by exact Hk. reflexivity.
Qed.

(** With [stop] an exact multiple of a positive step, no point of the grid
    is beyond [stop], and the last point is less than two steps short of
    it. *)
Lemma grid_extent step (n : Z) (stop : Q) :
  0 < step -> (0 <= n)%Z -> stop == inject_Z n * step ->
  Forall (fun x => 0 <= x /\ x <= stop) (grid step (Z.to_nat n)) /\
  stop < inject_Z (Z.of_nat (S (Z.to_nat n))) * step.
Proof.
  intros Hs Hn Hstop. split.
  - apply Forall_forall. intros x Hx.
    destruct (grid_bounds step n x Hs Hx) as [H0 H1].
    split; [exact H0|]. rewrite Hstop. now apply Qlt_le_weak.
  - assert (E : Z.of_nat (S (Z.to_nat n)) = (n + 1)%Z) by lia.
    rewrite E, inject_Z_plus, Hstop.
    setoid_replace ((inject_Z n + inject_Z 1) * step)
      with (inject_Z n * step + step) by ring.
    set (t := inject_Z n * step). lra.
Qed.

Lemma fold_max_spec l x :
  let m := fold_left (fun m y => if Qltb m y then y else m) l x in
  In m (x :: l) /\ x <= m /\ Forall (fun y => y <= m) l.
Proof.
  revert x. induction l as [|y l IH]; intros x; simpl.
  - repeat split; auto. apply Qle_refl.
  - destruct (Qltb x y) eqn:E.
    + apply Qltb_lt in E. destruct (IH y) as (Hin & Hle & Hall).
      repeat split; [tauto | lra | constructor; assumption].
    + apply Qltb_ge in E. destruct (IH x) as (Hin & Hle & Hall).
      repeat split; [simpl in Hin; tauto | assumption |].
      constructor; [lra | assumption].
Qed.

Lemma py_max_spec l m :
  py_max l = Ok m -> In m l /\ Forall (fun y => y <= m) l.
Proof.
  destruct l as [|x l]; simpl; [discriminate|].
  intros H. injection H as <-.
  destruct (fold_max_spec l x) as (Hin & Hle & Hall).
  split; [exact Hin | constructor; assumption].
Qed.

(** ** The bodies *)

Lemma data_comprehension_NoDup items acc data :
  NoDup (map fst acc) -> data_comprehension items acc = Ok data ->
  NoDup (map fst data).
Proof.
  revert acc. induction items as [|[name pl] rest IH]; simpl; intros acc Hnd H.
  - now injection H as <-.
  - do 3 inv_bind H. eapply IH; [|exact H]. now apply dict_set_NoDup.
Qed.

Lemma build_data_inv all_data data :
  build_data all_data = Ok data ->
  NoDup (map fst data) /\ In ("sun"%string, sun) data.
Proof.
  unfold build_data. intros H. inv_bind H. injection H as <-. split.
  - apply dict_set_NoDup. eapply data_comprehension_NoDup; [|exact Ha].
    constructor.
  - apply dict_get_In, dict_get_set_same.
Qed.

(** ** [get_phi] on equal numbers, and where it is defined *)

Lemma Qltb_compat a a' b : a == a' -> Qltb a b = Qltb a' b.
Proof.
  intros E. destruct (Qltb a b) eqn:H1, (Qltb a' b) eqn:H2; try reflexivity.
  - apply Qltb_lt in H1. apply Qltb_ge in H2. rewrite E in H1. lra.
  - apply Qltb_ge in H1. apply Qltb_lt in H2. rewrite E in H1. lra.
Qed.

Lemma py_div_compat a b b' : b == b' -> req (py_div a b) (py_div a b').
Proof.
  intros E. unfold py_div. rewrite <- E.
  destruct (Qeq_bool b 0) eqn:H0; simpl; [reflexivity|].
  now rewrite E.
Qed.

Lemma py_div_compat_num a a' b : a == a' -> req (py_div a b) (py_div a' b).
Proof.
  intros E. unfold py_div.
  destruct (Qeq_bool b 0) eqn:H0; simpl; [reflexivity|].
  now rewrite E.
Qed.

Lemma get_phi_compat M R S S' : S == S' -> req (get_phi M R S) (get_phi M R S').
Proof.
  intros E. unfold get_phi. rewrite (Qltb_compat S S' R E).
  destruct (Qltb S' R).
  - unfold phi_inside. apply py_div_compat_num. now rewrite E.
  - unfold phi_outside. now apply py_div_compat.
Qed.

Lemma neg_get_phi_compat M R S S' :
  S == S' -> req (neg_get_phi M R S) (neg_get_phi M R S').
Proof.
  intros E. unfold neg_get_phi. pose proof (get_phi_compat M R S S' E) as H.
  destruct (get_phi M R S), (get_phi M R S'); simpl in *; try tauto.
  now rewrite H.
Qed.

Lemma get_phi_total M R S : 0 < R -> exists v, get_phi M R S = Ok v.
Proof.
  intros HR. destruct (Qlt_le_dec S R).
  - eexists. apply get_phi_inside_val; lra.
  - eexists. apply get_phi_outside_val; lra.
Qed.

Lemma neg_get_phi_total M R S : 0 < R -> exists v, neg_get_phi M R S = Ok v.
Proof.
  intros HR. unfold neg_get_phi.
  destruct (get_phi_total M R S HR) as [v ->]. simpl. eauto.
Qed.

Lemma get_phi_nonpos M R S v :
  0 <= M -> 0 <= R -> 0 <= S -> get_phi M R S = Ok v -> v <= 0.
Proof.
  intros HM HR HS H.
  assert (HGM : 0 <= G * M) by (apply Qmult_le_0_compat; [discriminate | exact HM]).
  destruct (Qlt_le_dec S R) as [Hlt|Hge].
  - rewrite get_phi_inside_val in H by lra. injection H as <-.
    assert (Hden : 0 < 2 * R ^ 3).
    { setoid_replace (2 * R ^ 3) with (2 * (R * R * R)) by ring.
      repeat apply Qmult_lt_0_compat; lra. }
    apply Qle_shift_div_r; [exact Hden|].
    assert (Hnum : 0 <= 3 * R ^ 2 - S ^ 2).
    { setoid_replace (3 * R ^ 2 - S ^ 2)
        with ((R - S) * (R + S) + 2 * (R * R)) by ring.
      assert (0 <= (R - S) * (R + S)) by (apply Qmult_le_0_compat; lra).
      assert (0 <= R * R) by (apply Qmult_le_0_compat; lra). lra. }
    assert (0 <= (G * M) * (3 * R ^ 2 - S ^ 2)) by now apply Qmult_le_0_compat.
    setoid_replace (G * M * (S ^ 2 - 3 * R ^ 2))
      with (- (G * M * (3 * R ^ 2 - S ^ 2))) by ring.
    lra.
  - unfold get_phi in H. rewrite (proj2 (Qltb_ge S R) Hge) in H.
    apply py_div_Ok_inv in H. destruct H as [HS0 ->].
    apply Qle_shift_div_r; [lra|].
    setoid_replace (- G * M) with (- (G * M)) by ring. lra.
Qed.

Lemma neg_get_phi_nonneg M R S v :
  0 <= M -> 0 <= R -> 0 <= S -> neg_get_phi M R S = Ok v -> 0 <= v.
Proof.
  intros HM HR HS H. unfold neg_get_phi in H. inv_bind H. injection H as <-.
  pose proof (get_phi_nonpos M R S a HM HR HS Ha). lra.
Qed.

Lemma neg_get_phi_Ok_inv M R S w :
  neg_get_phi M R S = Ok w -> exists x, get_phi M R S = Ok x /\ w = - x.
Proof.
  unfold neg_get_phi. intros H. inv_bind H as x Hx. injection H as <-.
  now exists x.
Qed.

(** ** The curve of one body *)

Lemma S_range_of_nonzero p :
  ~ body_R p == 0 ->
  S_range_of p = Ok (grid (body_R p / 100) (Z.to_nat 10000)).
Proof.
  intros HR. unfold S_range_of. apply arange_count.
  - intros H0. apply HR.
    setoid_replace (body_R p) with (body_R p / 100 * 100) by field.
    rewrite H0. reflexivity.
  - field.
Qed.

Lemma S_range_of_pos p :
  0 < body_R p ->
  S_range_of p = Ok (grid (body_R p / 100) (Z.to_nat 10000)).
Proof. intros HR. apply S_range_of_nonzero. lra. Qed.

Lemma dense_grid_bounds p x :
  0 < body_R p -> In x (grid (body_R p / 100) (Z.to_nat 10000)) ->
  0 <= x /\ x < body_R p * 100.
Proof.
  intros HR Hx. apply grid_bounds in Hx.
  - destruct Hx as [H0 H1]. split; [exact H0|].
    setoid_replace (body_R p * 100) with (inject_Z 10000 * (body_R p / 100))
      by field. exact H1.
  - apply Qlt_shift_div_l; lra.
Qed.

(** A sample of a body's curve comes from the dense grid, at [p.S + S] or
    mirrored at [p.S - S > 0], or from the coarse grid. *)
Lemma body_curve_samples base p S_range c d v :
  S_range_of p = Ok S_range -> body_curve base p = Ok c -> In (d, v) c ->
  (exists S_, In S_ S_range /\
              neg_get_phi (body_M p) (body_R p) S_ = Ok v /\
              (d = body_S p + S_ \/ (d = body_S p - S_ /\ 0 < body_S p - S_)))
  \/ (In d base /\ magnitude_at p d = Ok v).
Proof.
  intros HS H Hin. unfold body_curve in H. rewrite HS in H. simpl in H.
  inv_bind H. rewrite dense_loop_closed in Ha. inv_bind Ha.
  injection Ha as <-. rename a0 into vs. apply mapM_Forall2 in Ha0.
  rewrite coarse_loop_closed in H. inv_bind H. injection H as <-.
  rename a into ws. apply mapM_Forall2 in Ha.
  simpl in Hin. apply in_app_or in Hin. destruct Hin as [Hin|Hin].
  - left. apply in_flat_map in Hin. destruct Hin as ([S_ v'] & Hc & Hs).
    destruct (Forall2_combine_In _ _ _ _ _ Ha0 Hc) as [HSin Hv].
    exists S_. simpl in Hs. destruct Hs as [E|Hs].
    + injection E as <- <-. auto.
    + destruct (Qltb 0 (body_S p - S_)) eqn:Hg; [|contradiction].
      destruct Hs as [E|[]]. injection E as <- <-.
      apply Qltb_lt in Hg. auto.
  - right. now apply (Forall2_combine_In _ _ _ _ _ Ha).
Qed.

(** Every offset of the dense grid yields its sample, and the mirrored one
    with the same magnitude when [p.S - S > 0]. *)
Lemma body_curve_mirrored base p S_range c S_ :
  S_range_of p = Ok S_range -> body_curve base p = Ok c -> In S_ S_range ->
  exists v, neg_get_phi (body_M p) (body_R p) S_ = Ok v /\
            In (body_S p + S_, v) c /\
            (0 < body_S p - S_ -> In (body_S p - S_, v) c).
Proof.
  intros HS H Hin. unfold body_curve in H. rewrite HS in H. simpl in H.
  inv_bind H. rewrite dense_loop_closed in Ha. inv_bind Ha.
  injection Ha as <-. rename a0 into vs. apply mapM_Forall2 in Ha0.
  rewrite coarse_loop_closed in H. inv_bind H. injection H as <-.
  destruct (Forall2_In_combine _ _ _ _ Ha0 Hin) as (v & Hc & Hv).
  exists v. split; [exact Hv|]. simpl. split.
  - apply in_or_app. left. apply in_flat_map. exists (S_, v). simpl. auto.
  - intros Hg. apply Qltb_lt in Hg.
    apply in_or_app. left. apply in_flat_map. exists (S_, v). simpl.
    rewrite Hg. simpl. auto.
Qed.

Lemma body_curve_coarse base p c x :
  body_curve base p = Ok c -> In x base ->
  exists v, In (x, v) c /\ magnitude_at p x = Ok v.
Proof.
  intros H Hx. unfold body_curve in H. inv_bind H as S_range HS.
  inv_bind H as c1 Hc1. rewrite coarse_loop_closed in H.
  inv_bind H as ws Hws. injection H as <-. apply mapM_Forall2 in Hws.
  destruct (Forall2_In_combine _ _ _ _ Hws Hx) as (v & Hin & Hv).
  exists v. split; [apply in_or_app; right; exact Hin | exact Hv].
Qed.

Lemma body_curve_range base p c :
  body_curve base p = Ok c -> exists S_range, S_range_of p = Ok S_range.
Proof.
  unfold body_curve. intros H. inv_bind H as S_range HS. now exists S_range.
Qed.

Lemma body_curve_total base p :
  0 < body_R p -> exists c, body_curve base p = Ok c.
Proof.
  intros HR. unfold body_curve. rewrite (S_range_of_pos p HR). cbn [bind].
  rewrite dense_loop_closed.
  destruct (mapM_total (neg_get_phi (body_M p) (body_R p))
              (grid (body_R p / 100) (Z.to_nat 10000))) as [vs ->].
  { intros x _. now apply neg_get_phi_total. }
  cbn [bind]. rewrite coarse_loop_closed.
  destruct (mapM_total (magnitude_at p) base) as [ws ->].
  { intros x _. now apply neg_get_phi_total. }
  cbn [bind]. eauto.
Qed.

(** ** The whole sampler *)

Lemma dict_get_set_other {V : Type} k (v : V) d k' :
  k' <> k -> dict_get k' (dict_set k v d) = dict_get k' d.
Proof.
  intros Hne. induction d as [|[k0 v0] d IH]; simpl.
  - destruct (String.eqb_spec k' k); [contradiction | reflexivity].
  - destruct (String.eqb_spec k k0) as [->|Hk]; simpl.
    + destruct (String.eqb_spec k' k0); [contradiction | reflexivity].
    + now rewrite IH.
Qed.

Lemma potential_curves_inv all_data st :
  potential_curves all_data = Ok st ->
  exists m phi0 allc, run_facts all_data st m phi0 allc.
Proof.
  unfold potential_curves. intros H.
  inv_bind H as dat Hdat.
  inv_bind H as m Hm.
  inv_bind H as hearth Hhearth.
  inv_bind H as base Hbase.
  inv_bind H as phi0 Hphi0.
  inv_bind H as allc Hallc.
  injection H as <-. exists m, phi0, allc.
  constructor; simpl; auto.
  exists hearth. split; [|reflexivity].
  unfold dict_getitem in Hhearth.
  destruct (dict_get "earth" dat); [congruence | discriminate].
Qed.

Lemma run_max_S_pos all_data st m phi0 allc :
  run_facts all_data st m phi0 allc ->
  In m (map body_S (values (data st))) /\
  Forall (fun s => s <= m) (map body_S (values (data st))) /\
  0 < max_S st.
Proof.
  intros F. destruct (py_max_spec _ _ (rf_max _ _ _ _ _ F)) as [Hin Hall].
  repeat split; auto.
  destruct (build_data_inv _ _ (rf_data _ _ _ _ _ F)) as [_ Hsun].
  assert (H0 : 0 <= m).
  { rewrite Forall_forall in Hall. apply (Hall (body_S sun)).
    unfold values. rewrite map_map. apply in_map_iff.
    exists ("sun"%string, sun). auto. }
  pose proof (arange_Ok_inv _ _ _ _ (rf_base _ _ _ _ _ F)) as Hstep.
  rewrite (rf_S_bin _ _ _ _ _ F) in Hstep.
  rewrite (rf_max_S _ _ _ _ _ F) in *.
  destruct (Qlt_le_dec 0 (m * (12 # 10))) as [|Hle]; [assumption|].
  exfalso. apply Hstep. assert (m == 0) by lra.
  setoid_replace m with 0 by assumption. reflexivity.
Qed.

Lemma run_base_S_range all_data st m phi0 allc :
  run_facts all_data st m phi0 allc ->
  base_S_range st = grid (max_S st / 1000) (Z.to_nat 1000) /\
  Forall (fun x => 0 <= x /\ x < max_S st) (base_S_range st).
Proof.
  intros F. destruct (run_max_S_pos _ _ _ _ _ F) as (_ & _ & Hpos).
  pose proof (rf_base _ _ _ _ _ F) as Hb.
  rewrite (rf_S_bin _ _ _ _ _ F) in Hb.
  rewrite (arange_count (max_S st) (max_S st / 1000) 1000) in Hb.
  - injection Hb as Hb. split; [now symmetry|].
    rewrite <- Hb. apply Forall_forall. intros x Hx.
    apply (grid_bounds _ 1000) in Hx; [|apply Qlt_shift_div_l; lra].
    destruct Hx as [H0 H1]. split; [exact H0|].
    setoid_replace (max_S st) with (inject_Z 1000 * (max_S st / 1000))
      by field. exact H1.
  - intros H0. assert (max_S st == 0); [|lra].
    setoid_replace (max_S st) with (max_S st / 1000 * 1000) by field.
    rewrite H0. reflexivity.
  - field.
Qed.

Lemma body_curve_R_nonzero base p c :
  body_curve base p = Ok c -> ~ body_R p == 0.
Proof.
  unfold body_curve. intros H. inv_bind H.
  apply arange_Ok_inv in Ha. intros H0. apply Ha. rewrite H0. reflexivity.
Qed.

Lemma run_entries all_data st m phi0 allc :
  run_facts all_data st m phi0 allc ->
  NoDup (map fst phi0) /\
  (forall name p, In (name, p) (data st) ->
     exists c, In (name, c) phi0 /\ body_curve (base_S_range st) p = Ok c) /\
  (forall name c, In (name, c) phi0 ->
     exists p, In (name, p) (data st) /\ body_curve (base_S_range st) p = Ok c).
Proof.
  intros F. destruct (build_data_inv _ _ (rf_data _ _ _ _ _ F)) as [Hnd _].
  destruct (body_loop_entries _ _ _ Hnd (rf_loop _ _ _ _ _ F)) as [Hk Hf].
  split; [now rewrite Hk|]. split.
  - intros name p Hin.
    destruct (Forall2_In_l _ _ _ _ Hf Hin) as ([name' c] & Hc & E & Hb).
    simpl in *. subst name'. eauto.
  - intros name c Hin.
    destruct (Forall2_In_r _ _ _ _ Hf Hin) as ([name' p] & Hp & E & Hb).
    simpl in *. subst name'. eauto.
Qed.

(** C7, as the code has it.  In a run that returns: [max_S] is 1.2 times
    the largest orbital distance of the bodies, the Sun with [S = 0] among
    them; the coarse grid [base_S_range] consists of the multiples
    [k * (max_S/1000)], [k = 0, 1, ...], in order, from 0 up to [max_S]:
    no point is beyond [max_S], and the last point is less than two steps
    short of it; and the dense grid of each body [p] consists of the
    multiples [k * (p.R/100)] in order, from 0 up to [p.R*100] in the same
    sense when [p.R > 0]. *)
Theorem grids_spec (all_data : dict planet) (st : locals) :
  potential_curves all_data = Ok st ->
  (exists m, In m (map body_S (values (data st))) /\
             Forall (fun s => s <= m) (map body_S (values (data st))) /\
             max_S st = m * (12 # 10)) /\
  In ("sun"%string, {| body_M := M_sun; body_S := 0; body_R := R_sun |})
     (data st) /\
  S_bin st = max_S st / 1000 /\
  (forall k, (k < List.length (base_S_range st))%nat ->
     exists x, nth_error (base_S_range st) k = Some x /\
               x == inject_Z (Z.of_nat k) * (max_S st / 1000)) /\
  Forall (fun x => 0 <= x /\ x <= max_S st) (base_S_range st) /\
  max_S st
  < inject_Z (Z.of_nat (S (List.length (base_S_range st)))) * (max_S st / 1000) /\
  forall name p, In (name, p) (data st) ->
    exists g,
      S_range_of p = Ok g /\
      (forall k, (k < List.length g)%nat ->
         exists x, nth_error g k = Some x /\
                   x == inject_Z (Z.of_nat k) * (body_R p / 100)) /\
      (0 < body_R p ->
       Forall (fun x => 0 <= x /\ x <= body_R p * 100) g /\
       body_R p * 100
       < inject_Z (Z.of_nat (S (List.length g))) * (body_R p / 100)).
Proof.
  intros H. destruct (potential_curves_inv _ _ H) as (m & phi0 & allc & F).
  destruct (run_max_S_pos _ _ _ _ _ F) as (Hin & Hall & Hpos).
  destruct (run_base_S_range _ _ _ _ _ F) as [Hb _].
  assert (Hstep : 0 < max_S st / 1000) by (apply Qlt_shift_div_l; lra).
  destruct (grid_extent (max_S st / 1000) 1000 (max_S st) Hstep)
    as [Hbounds Hnext]; [lia | field |].
  split; [exists m; repeat split; auto; apply (rf_max_S _ _ _ _ _ F)|].
  split; [apply (build_data_inv _ _ (rf_data _ _ _ _ _ F))|].
  split; [apply (rf_S_bin _ _ _ _ _ F)|].
  rewrite Hb, length_grid.
  split; [intros k Hk; now apply grid_nth|].
  split; [exact Hbounds|]. split; [exact Hnext|].
  intros name p Hp. destruct (run_entries _ _ _ _ _ F) as (_ & Hto & _).
  destruct (Hto name p Hp) as (c & _ & Hc).
  exists (grid (body_R p / 100) (Z.to_nat 10000)).
  split; [apply S_range_of_nonzero; exact (body_curve_R_nonzero _ _ _ Hc)|].
  rewrite length_grid.
  split; [intros k Hk; now apply grid_nth|].
  intros HR. apply grid_extent; [apply Qlt_shift_div_l; lra | lia | field].
Qed.

(** C10, as the code has it.  In a run that returns, the curve of every
    body [p] is made of exactly these samples.  Every offset [S] of the
    body's dense grid contributes [(p.S + S, v)] and, when [p.S - S > 0],
    also [(p.S - S, v)], both with the same [v], the negated result of
    [get_phi(p.M, p.R, S)]; every point [S] of the coarse grid contributes
    [(S, v)] with [v] the negated result of
    [get_phi(p.M, p.R, abs(p.S - S))]. *)
Theorem body_curve_magnitudes (all_data : dict planet) (st : locals)
    (name : string) (p : body) :
  potential_curves all_data = Ok st ->
  In (name, p) (data st) ->
  exists c g,
    body_curve (base_S_range st) p = Ok c /\
    S_range_of p = Ok g /\
    (name <> "all"%string -> dict_get name (phi st) = Some c) /\
    (forall d v, In (d, v) c ->
       (exists S_ x,
          In S_ g /\ get_phi (body_M p) (body_R p) S_ = Ok x /\ v = - x /\
          (d = body_S p + S_ \/ (d = body_S p - S_ /\ 0 < body_S p - S_)))
       \/
       (exists x,
          In d (base_S_range st) /\
          get_phi (body_M p) (body_R p) (Qabs (body_S p - d)) = Ok x /\
          v = - x)) /\
    (forall S_, In S_ g ->
       exists x,
         get_phi (body_M p) (body_R p) S_ = Ok x /\
         In (body_S p + S_, - x) c /\
         (0 < body_S p - S_ -> In (body_S p - S_, - x) c)) /\
    (forall S_, In S_ (base_S_range st) ->
       exists x,
         get_phi (body_M p) (body_R p) (Qabs (body_S p - S_)) = Ok x /\
         In (S_, - x) c).
Proof.
  intros H Hp. destruct (potential_curves_inv _ _ H) as (m & phi0 & allc & F).
  destruct (run_entries _ _ _ _ _ F) as (Hnd & Hto & _).
  destruct (Hto name p Hp) as (c & Hc & Hb).
  destruct (body_curve_range _ _ _ Hb) as (g & Hg).
  exists c, g. split; [exact Hb|]. split; [exact Hg|].
  split; [|split; [|split]].
  - intros Hne. rewrite (rf_phi _ _ _ _ _ F).
    rewrite dict_get_set_other by exact Hne. now apply In_dict_get.
  - intros d v Hin.
    destruct (body_curve_samples _ p g c d v Hg Hb Hin)
      as [(S_ & HS & Hv & Hd)|[Hd Hv]].
    + left. destruct (neg_get_phi_Ok_inv _ _ _ _ Hv) as (x & Hx & ->).
      exists S_, x. auto.
    + right. destruct (neg_get_phi_Ok_inv _ _ _ _ Hv) as (x & Hx & ->).
      exists x. auto.
  - intros S_ HS.
    destruct (body_curve_mirrored _ p g c S_ Hg Hb HS) as (v & Hv & H1 & H2).
    destruct (neg_get_phi_Ok_inv _ _ _ _ Hv) as (x & Hx & ->).
    exists x. auto.
  - intros S_ HS.
    destruct (body_curve_coarse _ p c S_ Hb HS) as (v & Hin & Hv).
    destruct (neg_get_phi_Ok_inv _ _ _ _ Hv) as (x & Hx & ->).
    exists x. auto.
Qed.

Lemma all_curve_inv data phi0 allc :
  all_curve data phi0 = Ok allc ->
  map fst allc = sorted (all_S_values phi0) /\
  forall d v, In (d, v) allc ->
    In d (all_S_values phi0) /\
    exists ws, Forall2 (fun p w => magnitude_at p d = Ok w) (values data) ws /\
               v == Qsum ws.
Proof.
  unfold all_curve. rewrite all_comprehension_closed. intros H.
  inv_bind H. injection H as <-. rename a into vs. apply mapM_Forall2 in Ha.
  split; [now apply (Forall2_map_fst_combine _ _ _ Ha)|].
  intros d v Hin. destruct (Forall2_combine_In _ _ _ _ _ Ha Hin) as [Hd Hv].
  split; [eapply Permutation_in; [apply sorted_perm | exact Hd]|].
  rewrite sum_phi_closed in Hv. inv_bind Hv. injection Hv as <-.
  exists a. split; [now apply mapM_Forall2|].
  rewrite fold_left_Qplus. ring.
Qed.

Lemma magnitudes_negated (ps : list body) (d : Q) (ws : list Q) :
  Forall2 (fun p w => magnitude_at p d = Ok w) ps ws ->
  exists xs,
    Forall2 (fun p x =>
               get_phi (body_M p) (body_R p) (Qabs (body_S p - d)) = Ok x)
            ps xs /\
    ws = map Qopp xs.
Proof.
  induction 1 as [|p w ps ws Hw _ (xs & Hxs & ->)].
  - exists []. split; [constructor | reflexivity].
  - destruct (neg_get_phi_Ok_inv _ _ _ _ Hw) as (x & Hx & ->).
    exists (x :: xs). split; [now constructor | reflexivity].
Qed.

(** C1.  In a run that returns, [phi["all"]] is the aggregate curve: each
    of its samples [(d, v)] has [v] equal to the sum over all bodies [p] of
    the negated results of [get_phi(p.M, p.R, abs(p.S - d))], and its
    distances are the distances of all the bodies' curves, every occurrence
    kept, in nondecreasing order. *)
Theorem all_curve_spec (all_data : dict planet) (st : locals) :
  potential_curves all_data = Ok st ->
  exists phi0 allc,
    body_loop (base_S_range st) (data st) [] = Ok phi0 /\
    phi st = dict_set "all" allc phi0 /\
    dict_get "all" (phi st) = Some allc /\
    (forall d v, In (d, v) allc ->
       exists xs,
         Forall2 (fun p x =>
                    get_phi (body_M p) (body_R p) (Qabs (body_S p - d))
                    = Ok x)
                 (values (data st)) xs /\
         v == Qsum (map Qopp xs)) /\
    Permutation (map fst allc) (List.concat (map (map fst) (values phi0))) /\
    StronglySorted Qle (map fst allc).
Proof.
  intros H. destruct (potential_curves_inv _ _ H) as (m & phi0 & allc & F).
  destruct (all_curve_inv _ _ _ (rf_all _ _ _ _ _ F)) as [Hfst Hval].
  exists phi0, allc.
  split; [apply (rf_loop _ _ _ _ _ F)|].
  split; [apply (rf_phi _ _ _ _ _ F)|].
  split; [rewrite (rf_phi _ _ _ _ _ F); apply dict_get_set_same|].
  split.
  { intros d v Hin. destruct (Hval d v Hin) as (_ & ws & Hws & Hv).
    destruct (magnitudes_negated _ _ _ Hws) as (xs & Hxs & Heq).
    exists xs. split; [exact Hxs|]. rewrite Hv, Heq. reflexivity. }
  rewrite Hfst. split; [|apply sorted_sorted].
  rewrite sorted_perm. unfold all_S_values. now rewrite flat_map_concat_map.
Qed.

Lemma body_curve_distance_nonneg base p c d v :
  0 < body_R p -> 0 <= body_S p -> Forall (fun x => 0 <= x) base ->
  body_curve base p = Ok c -> In (d, v) c -> 0 <= d.
Proof.
  intros HR HS Hbase H Hin.
  destruct (body_curve_samples base p _ c d v (S_range_of_pos p HR) H Hin)
    as [(S_ & HSin & _ & Hd)|[Hd _]].
  - destruct (dense_grid_bounds p S_ HR HSin) as [H0 _].
    destruct Hd as [->|[-> Hg]]; lra.
  - rewrite Forall_forall in Hbase. now apply Hbase.
Qed.

Lemma body_curve_value_nonneg base p c d v :
  0 <= body_M p -> 0 <= body_R p ->
  body_curve base p = Ok c -> In (d, v) c -> 0 <= v.
Proof.
  intros HM HR0 H Hin.
  pose proof (body_curve_R_nonzero _ _ _ H) as Hnz.
  assert (HR : 0 < body_R p) by lra.
  destruct (body_curve_samples base p _ c d v (S_range_of_pos p HR) H Hin)
    as [(S_ & HSin & Hv & _)|[_ Hv]].
  - destruct (dense_grid_bounds p S_ HR HSin) as [H0 _].
    now apply (neg_get_phi_nonneg _ _ _ _ HM HR0 H0 Hv).
  - apply (neg_get_phi_nonneg _ _ _ _ HM HR0 (Qabs_nonneg _) Hv).
Qed.

Lemma Qsum_nonneg ws : Forall (fun w => 0 <= w) ws -> 0 <= Qsum ws.
Proof.
  induction 1 as [|w ws Hw _ IH]; simpl; [apply Qle_refl | lra].
Qed.

Lemma In_all_S_values phi0 d :
  In d (all_S_values phi0) ->
  exists name c v, In (name, c) phi0 /\ In (d, v) c.
Proof.
  unfold all_S_values, values. rewrite in_flat_map.
  intros (c & Hc & Hd). apply in_map_iff in Hc. destruct Hc as ([name c'] & E & Hc).
  simpl in E. subst c'. apply in_map_iff in Hd. destruct Hd as ([d' v] & E & Hd).
  simpl in E. subst d'. eauto.
Qed.

(** C8, as the code has it.  In a run that returns on bodies with
    [R > 0] and [S >= 0], every distance of every curve of [phi], the
    aggregate included, is [>= 0]; and a sample of a body's curve is at
    [p.S + S] for an offset [S >= 0] of the body's dense grid, or at
    [p.S - S] for such an offset with [p.S - S > 0], or at a point of the
    coarse grid, which lies between 0 and [max_S]. *)
Theorem distances_nonneg (all_data : dict planet) (st : locals) :
  potential_curves all_data = Ok st ->
  (forall name p, In (name, p) (data st) -> 0 < body_R p /\ 0 <= body_S p) ->
  (forall name c d v, In (name, c) (phi st) -> In (d, v) c -> 0 <= d) /\
  (forall name p c d v,
     In (name, p) (data st) -> body_curve (base_S_range st) p = Ok c ->
     In (d, v) c ->
     (exists g S_,
        S_range_of p = Ok g /\ In S_ g /\ 0 <= S_ /\
        (d = body_S p + S_ \/ (d = body_S p - S_ /\ 0 < body_S p - S_))) \/
     (In d (base_S_range st) /\ 0 <= d /\ d <= max_S st)).
Proof.
  intros H Hvalid.
  destruct (potential_curves_inv _ _ H) as (m & phi0 & allc & F).
  destruct (run_entries _ _ _ _ _ F) as (_ & _ & Hfrom).
  destruct (run_base_S_range _ _ _ _ _ F) as [_ Hbase].
  assert (Hbase0 : Forall (fun x => 0 <= x) (base_S_range st)).
  { eapply Forall_impl; [|exact Hbase]. simpl. tauto. }
  assert (Hbody : forall name c d v, In (name, c) phi0 -> In (d, v) c -> 0 <= d).
  { intros name c d v Hc Hin. destruct (Hfrom name c Hc) as (p & Hp & Hb).
    destruct (Hvalid name p Hp) as [HR HS].
    now apply (body_curve_distance_nonneg _ p c d v HR HS Hbase0 Hb). }
  split.
  - intros name c d v Hc Hin. rewrite (rf_phi _ _ _ _ _ F) in Hc.
    apply dict_set_In in Hc. destruct Hc as [[_ ->]|Hc]; [|eauto].
    destruct (all_curve_inv _ _ _ (rf_all _ _ _ _ _ F)) as [_ Hval].
    destruct (Hval d v Hin) as [Hd _].
    destruct (In_all_S_values _ _ Hd) as (name' & c' & v' & Hc' & Hin').
    eauto.
  - intros name p c d v Hp Hb Hin. destruct (Hvalid name p Hp) as [HR HS].
    destruct (body_curve_samples _ p _ c d v (S_range_of_pos p HR) Hb Hin)
      as [(S_ & HSin & _ & Hd)|[Hd _]].
    + left. exists (grid (body_R p / 100) (Z.to_nat 10000)), S_.
      destruct (dense_grid_bounds p S_ HR HSin).
      split; [apply (S_range_of_pos p HR)|]. auto.
    + right. rewrite Forall_forall in Hbase. destruct (Hbase d Hd).
      split; [exact Hd|]. split; [assumption | now apply Qlt_le_weak].
Qed.

(** C4.  For [M >= 0], [R >= 0] and [S >= 0], wherever [get_phi M R S]
    returns, the stored magnitude [-get_phi M R S] is [>= 0]; so in a run
    that returns on bodies with [M >= 0] and [R >= 0], every value of
    every curve of [phi], the aggregate included, is [>= 0]. *)
Theorem magnitudes_nonneg :
  (forall M R S v,
     0 <= M -> 0 <= R -> 0 <= S -> get_phi M R S = Ok v -> 0 <= - v) /\
  (forall all_data st,
     potential_curves all_data = Ok st ->
     (forall name p, In (name, p) (data st) ->
        0 <= body_M p /\ 0 <= body_R p) ->
     forall name c d v, In (name, c) (phi st) -> In (d, v) c -> 0 <= v).
Proof.
  split.
  - intros M R S v HM HR HS H.
    pose proof (get_phi_nonpos M R S v HM HR HS H). lra.
  - intros all_data st H Hvalid name c d v Hc Hin.
    destruct (potential_curves_inv _ _ H) as (m & phi0 & allc & F).
    destruct (run_entries _ _ _ _ _ F) as (_ & _ & Hfrom).
    rewrite (rf_phi _ _ _ _ _ F) in Hc.
    apply dict_set_In in Hc. destruct Hc as [[_ ->]|Hc].
    + destruct (all_curve_inv _ _ _ (rf_all _ _ _ _ _ F)) as [_ Hval].
      destruct (Hval d v Hin) as [_ (ws & Hws & ->)].
      apply Qsum_nonneg.
      assert (Hall : forall p, In p (values (data st)) ->
                               0 <= body_M p /\ 0 <= body_R p).
      { intros p Hp. unfold values in Hp. apply in_map_iff in Hp.
        destruct Hp as ([name' p'] & E & Hp). simpl in E. subst p'. eauto. }
      clear - Hws Hall. induction Hws as [|p w ps ws Hw _ IH]; constructor.
      * destruct (Hall p) as [HM HR]; [simpl; auto|].
        apply (neg_get_phi_nonneg _ _ _ _ HM HR (Qabs_nonneg _) Hw).
      * apply IH. intros q Hq. apply Hall. simpl. auto.
    + destruct (Hfrom name c Hc) as (p & Hp & Hb).
      destruct (Hvalid name p Hp) as [HM HR].
      now apply (body_curve_value_nonneg _ p c d v HM HR Hb).
Qed.

(** ** Runs that return *)

Lemma potential_curves_total all_data dat :
  build_data all_data = Ok dat ->
  (forall name p, In (name, p) dat -> 0 < body_R p) ->
  (exists hearth, dict_get "earth" dat = Some hearth) ->
  (exists name p, In (name, p) dat /\ 0 < body_S p) ->
  exists st, potential_curves all_data = Ok st /\ data st = dat.
Proof.
  intros Hd HR [hearth Hearth] (name & p & Hp & HpS).
  unfold potential_curves. rewrite Hd. cbn [bind].
  destruct (py_max (map body_S (values dat))) as [m|e] eqn:Hm.
  2:{ exfalso. destruct dat; [contradiction | discriminate]. }
  cbn [bind]. unfold dict_getitem. rewrite Hearth. cbn [bind].
  assert (Hmpos : 0 < m).
  { destruct (py_max_spec _ _ Hm) as [_ Hall]. rewrite Forall_forall in Hall.
    apply Qlt_le_trans with (body_S p); [exact HpS|]. apply Hall.
    unfold values. rewrite map_map. apply in_map_iff. exists (name, p). auto. }
  rewrite (arange_from_0 (m * (12 # 10)) (m * (12 # 10) / 1000)).
  2:{ intros H0. assert (m == 0); [|lra].
      setoid_replace m with (m * (12 # 10) / 1000 * (10000 # 12)) by field.
      rewrite H0. reflexivity. }
  cbn [bind]. rewrite body_loop_closed.
  match goal with |- context [mapM (body_curve ?b) ?l] =>
    destruct (mapM_total (body_curve b) l) as [cs ->] end.
  { intros q Hq. apply body_curve_total. apply in_map_iff in Hq.
    destruct Hq as ([name' q'] & E & Hq). simpl in E. subst q'. eauto. }
  cbn [bind]. unfold all_curve. rewrite all_comprehension_closed.
  match goal with |- context [mapM ?f ?l] =>
    destruct (mapM_total f l) as [vs ->] end.
  { intros d _. rewrite sum_phi_closed.
    destruct (mapM_total (fun q => magnitude_at q d) (values dat)) as [ws ->].
    - intros q Hq. apply neg_get_phi_total. unfold values in Hq.
      apply in_map_iff in Hq. destruct Hq as ([name' q'] & E & Hq).
      simpl in E. subst q'. eauto.
    - cbn [bind]. eauto. }
  cbn [bind]. eexists. split; reflexivity.
Qed.


(** ** The data provider *)

Section DataProviderFacts.
Variable json : Type.
Variable json_loads : string -> result json.
Variable json_dumps : json -> string.

(** C6.  Once its modules are imported, [get_solar_system_data] returns
    what the cache file "planetary_factsheet.json" parses to whenever the
    file can be read and parsed, and leaves the world as it was.  When the
    read or the parse raises, whatever the exception, it fetches the
    dataset from its fixed address: if the response parses and the cache
    file can be written, the file then holds the dumped data, the other
    files are untouched and the data is returned; an exception of the
    fetch, of the parse of the response, of opening the cache file or of
    the dump is the outcome of the call. *)
Theorem get_solar_system_data_spec (w : World) :
  import_fails w = None ->
  (forall text data,
     read w "planetary_factsheet.json" = Ok text ->
     json_loads text = Ok data ->
     get_solar_system_data json json_loads json_dumps w = (w, Ok data)) /\
  (forall e,
     read w "planetary_factsheet.json" = Raise e \/
     (exists text, read w "planetary_factsheet.json" = Ok text /\
                   json_loads text = Raise e) ->
     (forall body data,
        remote w "https://raw.githubusercontent.com/sempostma/planetary-factsheet/master/data.json"
          = Ok body ->
        json_loads body = Ok data ->
        write_fails w = None -> dump_fails w = None ->
        exists w',
          get_solar_system_data json json_loads json_dumps w = (w', Ok data) /\
          read w' "planetary_factsheet.json" = Ok (json_dumps data) /\
          (forall path, path <> "planetary_factsheet.json"%string ->
                        read w' path = read w path)) /\
     (forall e',
        remote w "https://raw.githubusercontent.com/sempostma/planetary-factsheet/master/data.json"
          = Raise e' ->
        get_solar_system_data json json_loads json_dumps w = (w, Raise e')) /\
     (forall body e',
        remote w "https://raw.githubusercontent.com/sempostma/planetary-factsheet/master/data.json"
          = Ok body ->
        json_loads body = Raise e' ->
        get_solar_system_data json json_loads json_dumps w = (w, Raise e')) /\
     (forall body data e',
        remote w "https://raw.githubusercontent.com/sempostma/planetary-factsheet/master/data.json"
          = Ok body ->
        json_loads body = Ok data ->
        write_fails w = Some e' ->
        get_solar_system_data json json_loads json_dumps w = (w, Raise e')) /\
     (forall body data e' n,
        remote w "https://raw.githubusercontent.com/sempostma/planetary-factsheet/master/data.json"
          = Ok body ->
        json_loads body = Ok data ->
        write_fails w = None -> dump_fails w = Some (e', n) ->
        exists w',
          get_solar_system_data json json_loads json_dumps w = (w', Raise e') /\
          read w' "planetary_factsheet.json"
          = Ok (substring 0 n (json_dumps data)))).
Proof.
  intros Himp. unfold get_solar_system_data. rewrite Himp. split.
  - intros text data Hr Hl. unfold load_cache, fname. rewrite Hr. cbn [bind].
    now rewrite Hl.
  - intros e Hmiss.
    assert (Hl : load_cache json json_loads w = Raise e).
    { unfold load_cache, fname. destruct Hmiss as [Hr|(text & Hr & Hp)];
        rewrite Hr; cbn [bind]; [reflexivity | exact Hp]. }
    rewrite Hl. unfold fetch_remote, dataset_url, write_file, fname.
    split; [|split; [|split; [|split]]].
    + intros body data Hb Hp Hw Hd. rewrite Hb. cbn [bind]. rewrite Hp, Hw, Hd.
      eexists. split; [reflexivity|]. cbn [read set_file]. split.
      * reflexivity.
      * intros path Hne. destruct (String.eqb_spec path "planetary_factsheet.json");
          [contradiction | reflexivity].
    + intros e' Hb. now rewrite Hb.
    + intros body e' Hb Hp. rewrite Hb. cbn [bind]. now rewrite Hp.
    + intros body data e' Hb Hp Hw. rewrite Hb. cbn [bind]. now rewrite Hp, Hw.
    + intros body data e' n Hb Hp Hw Hd. rewrite Hb. cbn [bind].
      rewrite Hp, Hw, Hd. eexists. split; [reflexivity|]. reflexivity.
Qed.
End DataProviderFacts.

(** ** The renderer *)

Lemma plot_loop_locators AU names phi ax phi' ax' :
  plot_loop AU names phi ax = Ok (phi', ax') ->
  yaxis_major_locator ax' = yaxis_major_locator ax /\
  yaxis_minor_locator ax' = yaxis_minor_locator ax /\
  yaxis_minor_formatter_null ax' = yaxis_minor_formatter_null ax.
Proof.
  revert phi ax. induction names as [|name rest IH]; intros phi ax H.
  - simpl in H. injection H as _ <-. auto.
  - simpl in H. inv_bind H as c Hc. inv_bind H as xs Hxs.
    apply IH in H. exact H.
Qed.

Lemma default_subs :
  slice_1_m1 (linspace 0 1 (n_subticks_default + 2)) =
  map (fun k => 0 + inject_Z (Z.of_nat k) * ((1 - 0) / inject_Z 10))
      [1; 2; 3; 4; 5; 6; 7; 8; 9]%nat.
Proof. reflexivity. Qed.

Lemma render_locators st ax :
  render st = Ok ax ->
  yaxis_major_locator ax =
    Some {| base := 10; subs := None; numticks := 1000 |} /\
  yaxis_minor_formatter_null ax = true /\
  yaxis_minor_locator ax =
    Some {| base := 10;
            subs := Some (slice_1_m1 (linspace 0 1 (n_subticks_default + 2)));
            numticks := 1000 |}.
Proof.
  unfold render. intros H.
  inv_bind H as n Hn. inv_bind H as n' Hn'. inv_bind H as ticks Hticks.
  inv_bind H as r Hr. injection H as <-. destruct r as [phi' ax'].
  apply plot_loop_locators in Hr. destruct Hr as (Hmaj & Hmin & Hfmt).
  cbn [snd]. rewrite Hmaj, Hmin, Hfmt. repeat split.
Qed.

(** C9, as the code has it.  On the axes the renderer returns, the major
    locator of the Y axis is a [LogLocator] of base 10, the minor tick
    labels are off, and the minor locator is a [LogLocator] of base 10
    whose [subs] are the 9 numbers 0.1, 0.2, ..., 0.9, evenly spaced
    multiples, all strictly between 0 and 1. *)
Theorem minor_ticks_spec (st : locals) (ax : Axes) :
  render st = Ok ax ->
  yaxis_major_locator ax =
    Some {| base := 10; subs := None; numticks := 1000 |} /\
  yaxis_minor_formatter_null ax = true /\
  exists loc l,
    yaxis_minor_locator ax = Some loc /\ base loc = 10 /\ subs loc = Some l /\
    l = slice_1_m1 (linspace 0 1 (n_subticks_default + 2)) /\
    List.length l = 9%nat /\
    Forall2 Qeq l [1 # 10; 2 # 10; 3 # 10; 4 # 10; 5 # 10;
                   6 # 10; 7 # 10; 8 # 10; 9 # 10] /\
    Forall (fun x => 0 < x /\ x < 1) l.
Proof.
  intros H. destruct (render_locators st ax H) as (Hmaj & Hfmt & Hmin).
  split; [exact Hmaj|]. split; [exact Hfmt|].
  exists {| base := 10;
            subs := Some (slice_1_m1 (linspace 0 1 (n_subticks_default + 2)));
            numticks := 1000 |},
         (slice_1_m1 (linspace 0 1 (n_subticks_default + 2))).
  split; [exact Hmin|]. split; [reflexivity|].
  split; [reflexivity|]. split; [reflexivity|]. rewrite default_subs.
  split; [reflexivity|]. split.
  - repeat (constructor; [reflexivity|]). constructor.
  - repeat (constructor; [split; reflexivity|]). constructor.
Qed.

(** The same holds of the axes the whole program returns, whatever the
    world and the dataset. *)
Corollary program_minor_ticks json_loads json_dumps (w w' : World) (ax : Axes) :
  solar_system_gravitational_potential json_loads json_dumps w = (w', Ok ax) ->
  exists l,
    yaxis_minor_locator ax =
      Some {| base := 10; subs := Some l; numticks := 1000 |} /\
    List.length l = 9%nat.
Proof.
  unfold solar_system_gravitational_potential.
  destruct (get_solar_system_data _ json_loads json_dumps w) as [w1 [all_data|e]];
    [|discriminate].
  intros H. injection H as _ H. inv_bind H as st Hst.
  destruct (render_locators st ax H) as (_ & _ & Hmin).
  eexists. split; [exact Hmin|]. rewrite default_subs. reflexivity.
Qed.

(** C9 as stated fails: the [subs] handed to the minor locator by the call
    of line 121, with the default [n_subticks = 9], are 9 in number, not
    7. *)
Lemma minor_ticks_not_seven :
  exists loc l,
    yaxis_minor_locator
      (restore_minor_ticks_log_plot (set_yscale "log" new_axes)
         (Some (set_yscale "log" new_axes)) n_subticks_default) = Some loc /\
    subs loc = Some l /\
    List.length l = 9%nat /\ List.length l <> 7%nat.
Proof.
  eexists. eexists. split; [reflexivity|]. split; [reflexivity|].
  split; [reflexivity | discriminate].
Qed.

(** ** The same code in binary64 *)


(** C7 as stated fails: in binary64, when the largest semimajor axis is
    990.799413 (in 10^6 km), the quotient [max_S / S_bin] rounds to a
    number above 1000: the coarse grid has 1001 points, and the last one
    is [max_S] itself. *)
Lemma coarse_grid_reaches_max_S :
  exists g,
    B64.base_S_range_of (B64.max_S_of (B64.S_of 990.799413%float)) = Ok g /\
    List.length g = 1001%nat /\
    nth_error g 1000 = Some (B64.max_S_of (B64.S_of 990.799413%float)).
Proof.
  eexists. split; [vm_compute; reflexivity|].
  split; vm_compute; reflexivity.
Qed.

(** C10 as stated fails: in binary64, for a body of mass 1e24 and radius
    100 at orbital distance 1e20, the offset 5000 of the dense grid is
    absorbed: [p.S + S] and [p.S - S] are both 1e20.  The two samples
    stored for it carry the magnitude at distance 5000 from the body,
    which is more than 70 times smaller than the magnitude at
    [abs(p.S - d) = 0]. *)
Lemma absorbed_offset_changes_magnitude :
  exists g v w,
    B64.S_range_of 100%float = Ok g /\
    nth_error g 5000 = Some 5000%float /\
    B64.dense_step 1e24%float 1e20%float 100%float 5000%float
    = Ok [(1e20%float, v); (1e20%float, v)] /\
    B64.magnitude_at 1e24%float 1e20%float 100%float 1e20%float = Ok w /\
    (70 * v <? w)%float = true.
Proof.
  eexists. eexists. eexists.
  split; [vm_compute; reflexivity|].
  split; [vm_compute; reflexivity|].
  split; [vm_compute; reflexivity|].
  split; vm_compute; reflexivity.
Qed.

(** ** The properties at the sample data *)

Lemma example_build : build_data example_dataset = Ok example_data.
Proof. reflexivity. Qed.

Lemma example_bodies name p :
  In (name, p) example_data ->
  0 <= body_M p /\ 0 < body_R p /\ 0 <= body_S p.
Proof.
  intros [E|[E|[]]]; injection E as _ <-; repeat split; discriminate.
Qed.

Lemma example_run :
  exists st, potential_curves example_dataset = Ok st /\ data st = example_data.
Proof.
  apply potential_curves_total.
  - exact example_build.
  - intros name p Hp. apply (example_bodies name p Hp).
  - exists earth. reflexivity.
  - exists "earth"%string, earth. split; [left; reflexivity | reflexivity].
Qed.

(** C8 as stated fails: a body at a negative orbital distance gets
    samples at negative distances.  The first offset of its dense grid is
    0, and the sample for it is at [p.S] itself. *)
Lemma negative_orbit_negative_distance :
  exists st c d v,
    potential_curves dataset_negative_orbit = Ok st /\
    dict_get "probe" (phi st) = Some c /\
    In (d, v) c /\
    d < 0.
Proof.
  destruct (potential_curves_total dataset_negative_orbit
              [("earth"%string, earth); ("probe"%string, probe);
               ("sun"%string, sun)])
    as (st & Hst & Hdata).
  - reflexivity.
  - intros name p [E|[E|[E|[]]]]; injection E as _ <-; reflexivity.
  - exists earth. reflexivity.
  - exists "earth"%string, earth. split; [left; reflexivity | reflexivity].
  - destruct (potential_curves_inv _ _ Hst) as (m & phi0 & allc & F).
    destruct (run_entries _ _ _ _ _ F) as (Hnd & Hto & _).
    destruct (Hto "probe"%string probe) as (c & Hc & Hb).
    { rewrite Hdata. right. left. reflexivity. }
    destruct (body_curve_mirrored _ probe _ c
                (0 + inject_Z (Z.of_nat 0) * (body_R probe / 100))
                (S_range_of_pos probe eq_refl) Hb)
      as (v & _ & Hin & _).
    { apply in_map_iff. exists 0%nat. split; [reflexivity|].
      apply in_seq. lia. }
    exists st, c, (body_S probe
                   + (0 + inject_Z (Z.of_nat 0) * (body_R probe / 100))), v.
    split; [exact Hst|]. split; [|split; [exact Hin | reflexivity]].
    rewrite (rf_phi _ _ _ _ _ F).
    rewrite dict_get_set_other by discriminate. now apply In_dict_get.
Qed.

Lemma get_phi_formula_witness :
  (exists v, get_phi M_sun R_sun 0 = Ok v /\
             v == (74 # 10 ^ 29) * M_sun * (0 * 0 - 3 * (R_sun * R_sun))
                  / (2 * (R_sun * R_sun * R_sun))) /\
  (exists v, get_phi M_sun R_sun (2 * R_sun) = Ok v /\
             v == - ((74 # 10 ^ 29) * M_sun / (2 * R_sun))).
Proof.
  split.
  - eexists. split; [reflexivity|].
    refine (proj1 (proj2 (get_phi_formula M_sun R_sun 0 _ eq_refl)) _).
    reflexivity.
  - eexists. split; [reflexivity|].
    refine (proj2 (proj2 (get_phi_formula M_sun R_sun (2 * R_sun) _ eq_refl)) _).
    discriminate.
Defined.

Lemma get_phi_continuous_at_R_witness :
  0 < R_sun /\
  exists v0, get_phi M_sun R_sun R_sun = Ok v0 /\
    forall eps, 0 < eps ->
    exists delta, 0 < delta /\
      forall S, Qabs (S - R_sun) < delta ->
      exists v, get_phi M_sun R_sun S = Ok v /\ Qabs (v - v0) < eps.
Proof.
  assert (H : 0 < R_sun) by reflexivity.
  split; [exact H | exact (proj2 (get_phi_continuous_at_R M_sun R_sun H))].
Defined.


Lemma magnitudes_nonneg_witness :
  (exists v, get_phi M_sun R_sun 0 = Ok v /\ 0 <= - v) /\
  exists st, potential_curves example_dataset = Ok st /\
    forall name c d v, In (name, c) (phi st) -> In (d, v) c -> 0 <= v.
Proof.
  split.
  - eexists. split; [reflexivity|].
    apply (proj1 magnitudes_nonneg M_sun R_sun 0); [discriminate .. | reflexivity].
  - destruct example_run as (st & Hst & Hdata). exists st. split; [exact Hst|].
    apply (proj2 magnitudes_nonneg example_dataset st Hst).
    rewrite Hdata. intros name p Hp.
    destruct (example_bodies name p Hp) as (HM & HR & _).
    split; [exact HM | apply Qlt_le_weak, HR].
Defined.

Lemma all_curve_spec_witness :
  exists st phi0 allc,
    potential_curves example_dataset = Ok st /\
    phi st = dict_set "all" allc phi0 /\
    (forall d v, In (d, v) allc ->
       exists xs,
         Forall2 (fun p x =>
                    get_phi (body_M p) (body_R p) (Qabs (body_S p - d))
                    = Ok x)
                 (values example_data) xs /\
         v == Qsum (map Qopp xs)) /\
    Permutation (map fst allc) (List.concat (map (map fst) (values phi0))) /\
    StronglySorted Qle (map fst allc).
Proof.
  destruct example_run as (st & Hst & Hdata).
  destruct (all_curve_spec example_dataset st Hst)
    as (phi0 & allc & _ & Hphi & _ & Hval & Hperm & Hsorted).
  exists st, phi0, allc.
  split; [exact Hst|]. split; [exact Hphi|].
  split; [rewrite <- Hdata; exact Hval|].
  split; [exact Hperm | exact Hsorted].
Defined.

Lemma grids_spec_witness :
  exists st,
    potential_curves example_dataset = Ok st /\
    (forall k, (k < List.length (base_S_range st))%nat ->
       exists x, nth_error (base_S_range st) k = Some x /\
                 x == inject_Z (Z.of_nat k) * (max_S st / 1000)) /\
    Forall (fun x => 0 <= x /\ x <= max_S st) (base_S_range st) /\
    exists g,
      S_range_of earth = Ok g /\
      (forall k, (k < List.length g)%nat ->
         exists x, nth_error g k = Some x /\
                   x == inject_Z (Z.of_nat k) * (body_R earth / 100)) /\
      Forall (fun x => 0 <= x /\ x <= body_R earth * 100) g.
Proof.
  destruct example_run as (st & Hst & Hdata).
  assert (Hin : In ("earth"%string, earth) (data st))
    by (rewrite Hdata; left; reflexivity).
  destruct (grids_spec example_dataset st Hst)
    as (_ & _ & _ & Hb & Hall & _ & Hdense).
  destruct (Hdense "earth"%string earth Hin) as (g & Hg & Hk & Hext).
  exists st. split; [exact Hst|]. split; [exact Hb|]. split; [exact Hall|].
  exists g. split; [exact Hg|]. split; [exact Hk|].
  apply Hext. reflexivity.
Defined.

Lemma distances_nonneg_witness :
  exists st,
    potential_curves example_dataset = Ok st /\
    (forall name c d v, In (name, c) (phi st) -> In (d, v) c -> 0 <= d) /\
    (forall c d v,
       body_curve (base_S_range st) earth = Ok c -> In (d, v) c ->
       (exists g S_,
          S_range_of earth = Ok g /\ In S_ g /\ 0 <= S_ /\
          (d = body_S earth + S_ \/
           (d = body_S earth - S_ /\ 0 < body_S earth - S_))) \/
       (In d (base_S_range st) /\ 0 <= d /\ d <= max_S st)).
Proof.
  destruct example_run as (st & Hst & Hdata). exists st. split; [exact Hst|].
  assert (Hvalid : forall name p, In (name, p) (data st) ->
                                  0 < body_R p /\ 0 <= body_S p).
  { rewrite Hdata. intros name p Hp.
    destruct (example_bodies name p Hp) as (_ & HR & HS). split; assumption. }
  destruct (distances_nonneg example_dataset st Hst Hvalid) as [Hd Hs].
  split; [exact Hd|]. intros c d v. apply (Hs "earth"%string).
  rewrite Hdata. left. reflexivity.
Defined.

Lemma body_curve_magnitudes_witness :
  exists st c g,
    potential_curves example_dataset = Ok st /\
    dict_get "earth" (phi st) = Some c /\
    S_range_of earth = Ok g /\
    (forall d v, In (d, v) c ->
       (exists S_ x,
          In S_ g /\
          get_phi (body_M earth) (body_R earth) S_ = Ok x /\ v = - x /\
          (d = body_S earth + S_ \/
           (d = body_S earth - S_ /\ 0 < body_S earth - S_)))
       \/
       (exists x,
          In d (base_S_range st) /\
          get_phi (body_M earth) (body_R earth) (Qabs (body_S earth - d))
          = Ok x /\
          v = - x)) /\
    (forall S_, In S_ g ->
       exists x,
         get_phi (body_M earth) (body_R earth) S_ = Ok x /\
         In (body_S earth + S_, - x) c /\
         (0 < body_S earth - S_ -> In (body_S earth - S_, - x) c)).
Proof.
  destruct example_run as (st & Hst & Hdata).
  assert (Hin : In ("earth"%string, earth) (data st))
    by (rewrite Hdata; left; reflexivity).
  destruct (body_curve_magnitudes example_dataset st "earth" earth Hst Hin)
    as (c & g & _ & Hg & Hget & Hval & Hmir & _).
  exists st, c, g. split; [exact Hst|].
  split; [apply Hget; discriminate|].
  split; [exact Hg|]. split; [exact Hval | exact Hmir].
Defined.

Lemma minor_ticks_spec_witness :
  exists ax loc l,
    render example_locals = Ok ax /\
    yaxis_minor_locator ax = Some loc /\ subs loc = Some l /\
    List.length l = 9%nat.
Proof.
  destruct (render example_locals) as [ax|e] eqn:Hr; [|vm_compute in Hr; discriminate].
  destruct (minor_ticks_spec example_locals ax Hr)
    as (_ & _ & loc & l & Hloc & _ & Hsubs & _ & Hlen & _).
  exists ax, loc, l.
  split; [reflexivity|]. split; [exact Hloc|]. split; [exact Hsubs | exact Hlen].
Defined.

Lemma get_solar_system_data_spec_witness :
  get_solar_system_data _ example_loads example_dumps example_world_cached
  = (example_world_cached, Ok example_dataset) /\
  (exists w',
     get_solar_system_data _ example_loads example_dumps example_world
     = (w', Ok example_dataset) /\
     read w' "planetary_factsheet.json" = Ok "{}"%string) /\
  (exists w',
     get_solar_system_data _ example_loads example_dumps example_world_corrupt
     = (w', Ok example_dataset) /\
     read w' "planetary_factsheet.json" = Ok "{}"%string).
Proof.
  split; [|split].
  - apply (proj1 (get_solar_system_data_spec _ example_loads example_dumps
                    example_world_cached eq_refl) "{}"%string);
      reflexivity.
  - destruct (proj2 (get_solar_system_data_spec _ example_loads example_dumps
                       example_world eq_refl) OSError (or_introl eq_refl))
      as (Hfetch & _).
    destruct (Hfetch "{}"%string example_dataset eq_refl eq_refl eq_refl eq_refl)
      as (w' & Hw & Hread & _).
    exists w'. split; [exact Hw | exact Hread].
  - destruct (proj2 (get_solar_system_data_spec _ example_loads example_dumps
                       example_world_corrupt eq_refl) JSONDecodeError)
      as (Hfetch & _).
    { right. exists "{"%string. split; reflexivity. }
    destruct (Hfetch "{}"%string example_dataset eq_refl eq_refl eq_refl eq_refl)
      as (w' & Hw & Hread & _).
    exists w'. split; [exact Hw | exact Hread].
Defined.

(** * Further properties *)

(** ** The data provider: the cache *)

Section CacheFacts.
Variable json : Type.
Variable json_loads : string -> result json.
Variable json_dumps : json -> string.

(** A call that returns has either found the cache, or fetched the dataset
    and written it to the cache file. *)
Lemma get_solar_system_data_Ok (w w' : World) (data : json) :
  get_solar_system_data json json_loads json_dumps w = (w', Ok data) ->
  import_fails w = None /\
  ((w' = w /\ load_cache json json_loads w = Ok data) \/
   (w' = set_file fname (json_dumps data) w /\
    fetch_remote json json_loads w = Ok data)).
Proof.
  unfold get_solar_system_data.
  destruct (import_fails w) as [e|]; [discriminate|]. intros H.
  split; [reflexivity|].
  destruct (load_cache json json_loads w) as [d|e0].
  - injection H as <- <-. now left.
  - destruct (fetch_remote json json_loads w) as [d|e]; [|discriminate].
    unfold write_file in H.
    destruct (write_fails w) as [e|]; [discriminate|].
    destruct (dump_fails w) as [[e n]|]; [discriminate|].
    injection H as <- <-. now right.
Qed.

(** Parsing what was dumped gives the data back. *)
Hypothesis loads_dumps : forall data, json_loads (json_dumps data) = Ok data.

(** X1.  With a parser that reads back what the printer wrote: after a
    call that returned [data], the cache file parses to [data], and a
    second call returns [data] again and leaves the world as it is. *)
Theorem get_solar_system_data_again (w w' : World) (data : json) :
  get_solar_system_data json json_loads json_dumps w = (w', Ok data) ->
  load_cache json json_loads w' = Ok data /\
  get_solar_system_data json json_loads json_dumps w' = (w', Ok data).
Proof.
  intros H. destruct (get_solar_system_data_Ok w w' data H) as [Himp Hcase].
  assert (Himp' : import_fails w' = None).
  { destruct Hcase as [[-> _]|[-> _]]; exact Himp. }
  assert (Hl : load_cache json json_loads w' = Ok data).
  { destruct Hcase as [[-> Hl]|[-> _]]; [exact Hl|].
    unfold load_cache. cbn [read set_file]. rewrite String.eqb_refl.
    cbn [bind]. apply loads_dumps. }
  split; [exact Hl|]. unfold get_solar_system_data. now rewrite Himp', Hl.
Qed.
End CacheFacts.

(** ** The shape of the potential *)

Lemma neg_get_phi_inside M R S :
  0 < R -> S < R ->
  exists v, neg_get_phi M R S = Ok v /\
            v == (G * M) * ((3 * (R * R) - S * S) / (2 * (R * R * R))).
Proof.
  intros HR HS. unfold neg_get_phi.
  rewrite get_phi_inside_val by lra. cbn [bind].
  eexists. split; [reflexivity|]. field. lra.
Qed.

Lemma neg_get_phi_outside M R S :
  0 < R -> R <= S ->
  exists v, neg_get_phi M R S = Ok v /\ v == (G * M) * (1 / S).
Proof.
  intros HR HS. unfold neg_get_phi.
  rewrite get_phi_outside_val by lra. cbn [bind].
  eexists. split; [reflexivity|]. field. lra.
Qed.

Lemma Qmult_le_nonneg_l c a b : 0 <= c -> a <= b -> c * a <= c * b.
Proof.
  intros Hc Hab. assert (0 <= c * (b - a)) by (apply Qmult_le_0_compat; lra).
  lra.
Qed.

Lemma GM_nonneg M : 0 <= M -> 0 <= G * M.
Proof. intros HM. apply Qmult_le_0_compat; [discriminate | exact HM]. Qed.

(** The shape factors: [(3R^2 - S^2) / (2R^3)] inside, [1/S] outside. *)
Lemma inside_factor_le R S1 S2 :
  0 < R -> 0 <= S1 -> S1 <= S2 ->
  (3 * (R * R) - S2 * S2) / (2 * (R * R * R))
  <= (3 * (R * R) - S1 * S1) / (2 * (R * R * R)).
Proof.
  intros HR H1 H12.
  assert (Hpos : 0 < 2 * (R * R * R)) by (repeat apply Qmult_lt_0_compat; lra).
  apply Qle_shift_div_l; [exact Hpos|].
  setoid_replace ((3 * (R * R) - S2 * S2) / (2 * (R * R * R)) * (2 * (R * R * R)))
    with (3 * (R * R) - S2 * S2) by (field; lra).
  assert (0 <= (S2 - S1) * (S2 + S1)) by (apply Qmult_le_0_compat; lra).
  lra.
Qed.

Lemma inside_factor_ge_surface R S :
  0 < R -> S < R -> 0 <= S ->
  1 / R <= (3 * (R * R) - S * S) / (2 * (R * R * R)).
Proof.
  intros HR HS H0.
  assert (Hpos : 0 < 2 * (R * R * R)) by (repeat apply Qmult_lt_0_compat; lra).
  apply Qle_shift_div_l; [exact Hpos|].
  setoid_replace (1 / R * (2 * (R * R * R))) with (2 * (R * R)) by (field; lra).
  assert (0 <= (R - S) * (R + S)) by (apply Qmult_le_0_compat; lra).
  lra.
Qed.

Lemma inside_factor_le_centre R S :
  0 < R ->
  (3 * (R * R) - S * S) / (2 * (R * R * R)) <= (15 # 10) / R.
Proof.
  intros HR.
  assert (Hpos : 0 < 2 * (R * R * R)) by (repeat apply Qmult_lt_0_compat; lra).
  apply Qle_shift_div_r; [exact Hpos|].
  setoid_replace ((15 # 10) / R * (2 * (R * R * R))) with (3 * (R * R))
    by (field; lra).
  assert (0 <= S * S) by nra. lra.
Qed.

Lemma outside_factor_le S1 S2 : 0 < S1 -> S1 <= S2 -> 1 / S2 <= 1 / S1.
Proof.
  intros H1 H12. apply Qle_shift_div_l; [lra|].
  setoid_replace (1 / S2 * S1) with (S1 / S2) by (field; lra).
  apply Qle_shift_div_r; lra.
Qed.

(** X5.  For [M >= 0] and [R > 0] the magnitude [-get_phi M R S] does not
    increase with the distance [S >= 0], across the surface [S = R]
    included. *)
Theorem magnitude_decreasing (M R S1 S2 v1 v2 : Q) :
  0 <= M -> 0 < R -> 0 <= S1 -> S1 <= S2 ->
  neg_get_phi M R S1 = Ok v1 -> neg_get_phi M R S2 = Ok v2 ->
  v2 <= v1.
Proof.
  intros HM HR H1 H12 E1 E2. pose proof (GM_nonneg M HM) as HGM.
  destruct (Qlt_le_dec S1 R) as [I1|O1], (Qlt_le_dec S2 R) as [I2|O2].
  - destruct (neg_get_phi_inside M R S1 HR I1) as (a & Ea & Ha).
    destruct (neg_get_phi_inside M R S2 HR I2) as (b & Eb & Hb).
    assert (a = v1) by congruence. assert (b = v2) by congruence. subst.
    rewrite Ha, Hb. apply Qmult_le_nonneg_l; [exact HGM|]. now apply inside_factor_le.
  - destruct (neg_get_phi_inside M R S1 HR I1) as (a & Ea & Ha).
    destruct (neg_get_phi_outside M R S2 HR O2) as (b & Eb & Hb).
    assert (a = v1) by congruence. assert (b = v2) by congruence. subst.
    rewrite Ha, Hb. apply Qmult_le_nonneg_l; [exact HGM|].
    apply Qle_trans with (1 / R);
      [apply outside_factor_le; lra | now apply inside_factor_ge_surface].
  - lra.
  - destruct (neg_get_phi_outside M R S1 HR O1) as (a & Ea & Ha).
    destruct (neg_get_phi_outside M R S2 HR O2) as (b & Eb & Hb).
    assert (a = v1) by congruence. assert (b = v2) by congruence. subst.
    rewrite Ha, Hb. apply Qmult_le_nonneg_l; [exact HGM|].
    apply outside_factor_le; lra.
Qed.

(** X6.  For [M >= 0] and [R > 0], where [get_phi] returns both at [S]
    and at the centre, its value at the centre is -1.5*G*M/R, and the
    magnitude at [S] is at most the magnitude at the centre. *)
Theorem magnitude_bounded_by_centre (M R S x x0 : Q) :
  0 <= M -> 0 < R ->
  get_phi M R S = Ok x -> get_phi M R 0 = Ok x0 ->
  x0 == - ((15 # 10) * G * M / R) /\ - x <= - x0.
Proof.
  intros HM HR E Et. pose proof (GM_nonneg M HM) as HGM.
  assert (En : neg_get_phi M R S = Ok (- x))
    by (unfold neg_get_phi; rewrite E; reflexivity).
  assert (Etn : neg_get_phi M R 0 = Ok (- x0))
    by (unfold neg_get_phi; rewrite Et; reflexivity).
  destruct (neg_get_phi_inside M R 0 HR HR) as (top & Et' & Ht).
  assert (E1 : top = - x0) by congruence. subst top.
  assert (Htop : - x0 == (15 # 10) * G * M / R) by (rewrite Ht; field; lra).
  split; [rewrite <- Htop; ring|]. rewrite Htop.
  setoid_replace ((15 # 10) * G * M / R) with ((G * M) * ((15 # 10) / R))
    by (field; lra).
  destruct (Qlt_le_dec S R) as [I|O].
  - destruct (neg_get_phi_inside M R S HR I) as (a & Ea & Ha).
    assert (a = - x) by congruence. subst. rewrite Ha.
    apply Qmult_le_nonneg_l; [exact HGM|]. now apply inside_factor_le_centre.
  - destruct (neg_get_phi_outside M R S HR O) as (a & Ea & Ha).
    assert (a = - x) by congruence. subst. rewrite Ha.
    apply Qmult_le_nonneg_l; [exact HGM|].
    apply Qle_trans with (1 / R); [apply outside_factor_le; lra|].
    apply Qle_shift_div_l; [lra|].
    setoid_replace (1 / R * R) with 1 by (field; lra). discriminate.
Qed.

(** ** Minor ticks for any [n_subticks] *)

Lemma removelast_map {A B : Type} (f : A -> B) l :
  removelast (map f l) = map f (removelast l).
Proof.
  induction l as [|x [|y l] IH]; simpl in *; [reflexivity | reflexivity|].
  now rewrite IH.
Qed.

Lemma linspace_inner (start stop : Q) (n : nat) :
  slice_1_m1 (linspace start stop (n + 2)) =
  map (fun i => start + inject_Z (Z.of_nat i)
                        * ((stop - start) / inject_Z (Z.of_nat (n + 1))))
      (seq 1 n).
Proof.
  unfold slice_1_m1, linspace.
  replace (n + 2)%nat with (S (S n)) by lia.
  replace (S (S n) - 1)%nat with (n + 1)%nat by lia.
  change (seq 0 (S (S n))) with (0%nat :: seq 1 (S n)).
  cbn [map tl]. rewrite removelast_map. f_equal.
  rewrite seq_S, removelast_last. reflexivity.
Qed.

(** X4.  For every [n_subticks], whatever the axes,
    [restore_minor_ticks_log_plot] installs a minor locator of base 10
    whose [subs] are the [n_subticks] numbers [i / (n_subticks + 1)],
    [i = 1 .. n_subticks], all strictly between 0 and 1. *)
Theorem minor_subs_for_any_count (gca : Axes) (ax : option Axes) (n : nat) :
  exists l,
    yaxis_minor_locator (restore_minor_ticks_log_plot gca ax n) =
      Some {| base := 10; subs := Some l; numticks := 1000 |} /\
    List.length l = n /\
    (forall i, (i < n)%nat ->
       exists x, nth_error l i = Some x /\
                 x == inject_Z (Z.of_nat (i + 1)) / inject_Z (Z.of_nat (n + 1))) /\
    Forall (fun x => 0 < x /\ x < 1) l.
Proof.
  eexists. split; [reflexivity|]. rewrite linspace_inner.
  assert (Hn : 0 < inject_Z (Z.of_nat (n + 1))).
  { change 0 with (inject_Z 0). rewrite <- Zlt_Qlt. lia. }
  split; [now rewrite length_map, length_seq|]. split.
  - intros i Hi. eexists. split.
    + rewrite nth_error_map, nth_error_seq.
      destruct (Nat.ltb_spec i n); [reflexivity | lia].
    + replace (1 + i)%nat with (i + 1)%nat by lia. field. lra.
  - apply Forall_forall. intros x Hx. apply in_map_iff in Hx.
    destruct Hx as (i & <- & Hi). apply in_seq in Hi.
    assert (H1 : 0 < inject_Z (Z.of_nat i)).
    { change 0 with (inject_Z 0). rewrite <- Zlt_Qlt. lia. }
    assert (H2 : inject_Z (Z.of_nat i) < inject_Z (Z.of_nat (n + 1))).
    { rewrite <- Zlt_Qlt. lia. }
    setoid_replace (0 + inject_Z (Z.of_nat i) * ((1 - 0) / inject_Z (Z.of_nat (n + 1))))
      with (inject_Z (Z.of_nat i) / inject_Z (Z.of_nat (n + 1))) by (field; lra).
    split.
    + apply Qlt_shift_div_l; lra.
    + apply Qlt_shift_div_r; lra.
Qed.

(** ** Legend labels *)

Lemma translate_known name :
  In name known_names -> exists l, translate name = Some l.
Proof.
  unfold known_names. simpl.
  intros H. repeat (destruct H as [<-|H]; [eexists; reflexivity|]).
  contradiction.
Qed.

Lemma translate_unknown name : ~ In name known_names -> translate name = None.
Proof.
  intros H. unfold translate.
  repeat match goal with
  | |- context [String.eqb name ?s] =>
      destruct (String.eqb_spec name s) as [->|_];
      [exfalso; apply H; unfold known_names; simpl; tauto|]
  end.
  reflexivity.
Qed.

(** X8.  [translate] gives no label exactly to the names outside its
    eleven, and never gives one label to two different names. *)
Theorem translate_labels (name name' : string) :
  (translate name = None <-> ~ In name known_names) /\
  (forall l, translate name = Some l -> translate name' = Some l ->
             name = name').
Proof.
  split; [split|].
  - intros HN Hin. destruct (translate_known name Hin) as [l Hl]. congruence.
  - apply translate_unknown.
  - intros l H1 H2.
    destruct (in_dec string_dec name known_names) as [K1|K1];
      [|rewrite (translate_unknown _ K1) in H1; discriminate].
    destruct (in_dec string_dec name' known_names) as [K2|K2];
      [|rewrite (translate_unknown _ K2) in H2; discriminate].
    unfold known_names in K1, K2. simpl in K1, K2.
    repeat (destruct K1 as [<-|K1]; [
      repeat (destruct K2 as [<-|K2];
              [first [reflexivity | (vm_compute in H1, H2; congruence)]|]);
      contradiction |]).
    contradiction.
Qed.

(** ** Building [data] *)

Lemma dict_set_keys_list {V : Type} k (v : V) d :
  map fst (dict_set k v d) = keys_after_set k (map fst d).
Proof.
  unfold keys_after_set. induction d as [|[k0 v0] d IH]; simpl; [reflexivity|].
  destruct (String.eqb_spec k k0) as [E|Hne]; simpl.
  - destruct (string_dec k0 k); [now rewrite E | congruence].
  - rewrite IH. destruct (string_dec k0 k) as [E|Hk0]; [congruence|].
    destruct (in_dec string_dec k (map fst d)); reflexivity.
Qed.

Lemma planet_body_Ok pl b :
  planet_body pl = Ok b <->
  exists m s r,
    mass10_24Kg pl = Some m /\ semimajorAxis10_6Km pl = Some s /\
    volumetricMeanRadiusKm pl = Some r /\
    b = {| body_M := m * 10 ^ 24; body_S := s * 10 ^ 9; body_R := r * 10 ^ 3 |}.
Proof.
  unfold planet_body, py_mul_opt.
  destruct (mass10_24Kg pl) as [m|], (semimajorAxis10_6Km pl) as [s|],
    (volumetricMeanRadiusKm pl) as [r|]; simpl; split;
    try discriminate;
    try (intros (m' & s' & r' & H1 & H2 & H3 & _); discriminate).
  - intros H. injection H as <-. exists m, s, r. auto.
  - intros (m' & s' & r' & H1 & H2 & H3 & ->).
    injection H1 as <-. injection H2 as <-. injection H3 as <-. reflexivity.
Qed.

Lemma data_comprehension_closed items acc :
  data_comprehension items acc =
  (bs <- mapM planet_body (map snd items) ;;
   Ok (fold_left (fun d kv => dict_set (fst kv) (snd kv) d)
                 (combine (map fst items) bs) acc)).
Proof.
  revert acc. induction items as [|[name pl] rest IH]; intros acc; simpl;
    [reflexivity|].
  unfold planet_body at 1.
  destruct (py_mul_opt (mass10_24Kg pl) _) as [m|e]; simpl; [|reflexivity].
  destruct (py_mul_opt (semimajorAxis10_6Km pl) _) as [s|e]; simpl; [|reflexivity].
  destruct (py_mul_opt (volumetricMeanRadiusKm pl) _) as [r|e]; simpl; [|reflexivity].
  rewrite IH. destruct (mapM planet_body (map snd rest)); reflexivity.
Qed.

Lemma build_data_closed all_data data :
  NoDup (map fst all_data) ->
  build_data all_data = Ok data ->
  exists bs,
    Forall2 (fun pl b => planet_body pl = Ok b) (map snd all_data) bs /\
    data = dict_set "sun" sun (combine (map fst all_data) bs).
Proof.
  intros Hnd. unfold build_data. rewrite data_comprehension_closed. intros H.
  inv_bind H as d0 Hd0. inv_bind Hd0 as bs Hbs. injection Hd0 as <-.
  injection H as <-. exists bs. apply mapM_Forall2 in Hbs. split; [exact Hbs|].
  destruct (zip_keys_curves _ all_data bs Hbs) as [Hk _].
  rewrite fold_dict_set_fresh; simpl; [reflexivity | now rewrite Hk].
Qed.

Lemma build_data_keys_list all_data data :
  NoDup (map fst all_data) ->
  build_data all_data = Ok data ->
  map fst data = keys_after_set "sun" (map fst all_data).
Proof.
  intros Hnd H. destruct (build_data_closed _ _ Hnd H) as (bs & Hbs & ->).
  destruct (zip_keys_curves _ all_data bs Hbs) as [Hk _].
  now rewrite dict_set_keys_list, Hk.
Qed.

(** X10.  For a dataset with distinct names, [data] holds under "sun" the
    module's constants with [S = 0], whatever the dataset says of a "sun";
    its keys are the dataset's, in order, with "sun" added last when it is
    new; and every other name holds its entry converted: mass times 10^24,
    semi-major axis times 10^9, radius times 10^3. *)
Theorem build_data_entries (all_data : dict planet) (data : dict body) :
  NoDup (map fst all_data) ->
  build_data all_data = Ok data ->
  dict_get "sun" data = Some sun /\
  map fst data = keys_after_set "sun" (map fst all_data) /\
  forall name, name <> "sun"%string ->
    match dict_get name all_data with
    | None => dict_get name data = None
    | Some pl =>
        exists m s r,
          mass10_24Kg pl = Some m /\ semimajorAxis10_6Km pl = Some s /\
          volumetricMeanRadiusKm pl = Some r /\
          dict_get name data =
            Some {| body_M := m * 10 ^ 24; body_S := s * 10 ^ 9;
                    body_R := r * 10 ^ 3 |}
    end.
Proof.
  intros Hnd H. destruct (build_data_closed _ _ Hnd H) as (bs & Hbs & ->).
  destruct (zip_keys_curves _ all_data bs Hbs) as [Hk Hf].
  split; [apply dict_get_set_same|].
  split; [now rewrite dict_set_keys_list, Hk|].
  intros name Hne. rewrite dict_get_set_other by exact Hne.
  clear Hk Hnd H. revert bs Hbs Hf.
  induction all_data as [|[k pl] rest IH]; intros bs Hbs Hf; simpl.
  - inversion Hbs; subst. reflexivity.
  - inversion Hbs as [|? b ? bs' Hb Hrest]; subst. simpl.
    destruct (String.eqb_spec name k) as [->|_].
    + apply planet_body_Ok in Hb. destruct Hb as (m & s & r & ? & ? & ? & ->).
      exists m, s, r. auto.
    + inversion Hf; subst. now apply IH.
Qed.

(** ** How the sampler fails *)

Lemma build_data_nonempty all_data data :
  build_data all_data = Ok data -> In ("sun"%string, sun) data.
Proof. intros H. apply (build_data_inv _ _ H). Qed.

Lemma py_max_nonempty l x : In x l -> exists m, py_max l = Ok m.
Proof. destruct l; simpl; [tauto | eauto]. Qed.

Lemma run_max_exists all_data data :
  build_data all_data = Ok data ->
  exists m, py_max (map body_S (values data)) = Ok m /\ 0 <= m.
Proof.
  intros H. pose proof (build_data_nonempty _ _ H) as Hsun.
  assert (Hin : In (body_S sun) (map body_S (values data))).
  { unfold values. rewrite map_map. apply in_map_iff.
    exists ("sun"%string, sun). auto. }
  destruct (py_max_nonempty _ _ Hin) as [m Hm]. exists m. split; [exact Hm|].
  destruct (py_max_spec _ _ Hm) as [_ Hall]. rewrite Forall_forall in Hall.
  apply (Hall _ Hin).
Qed.

Lemma build_data_keys all_data data name :
  build_data all_data = Ok data ->
  In name (map fst data) ->
  name = "sun"%string \/ In name (map fst all_data).
Proof.
  unfold build_data. rewrite data_comprehension_closed. intros H.
  inv_bind H as d0 Hd0. inv_bind Hd0 as bs Hbs. injection Hd0 as <-.
  injection H as <-. rewrite dict_set_keys. intros [->|Hin]; [auto|]. right.
  apply mapM_Forall2 in Hbs. apply Forall2_length in Hbs.
  rewrite length_map in Hbs.
  assert (Hgen : forall kvs (acc : dict body),
            In name (map fst (fold_left
              (fun d kv => dict_set (fst kv) (snd kv) d) kvs acc)) ->
            In name (map fst acc) \/ In name (map fst kvs)).
  { induction kvs as [|[k v] kvs IH]; intros acc Hacc; simpl in *; [auto|].
    apply IH in Hacc. rewrite dict_set_keys in Hacc. intuition auto. }
  apply Hgen in Hin. destruct Hin as [[]|Hin].
  apply in_map_iff in Hin. destruct Hin as ([k b] & <- & Hin).
  apply in_combine_l in Hin. exact Hin.
Qed.

Lemma dict_get_None_keys {V : Type} k (d : dict V) :
  ~ In k (map fst d) -> dict_get k d = None.
Proof.
  induction d as [|[k0 v0] d IH]; simpl; [reflexivity|].
  intros H. destruct (String.eqb_spec k k0) as [E|_];
    [exfalso; apply H; left; now symmetry|].
  apply IH. tauto.
Qed.

(** X11.  When the dataset has no entry named "earth" (and every entry
    has its three keys), the sampler raises [KeyError]. *)
Theorem missing_earth_raises_KeyError (all_data : dict planet) (data : dict body) :
  build_data all_data = Ok data ->
  ~ In "earth"%string (map fst all_data) ->
  potential_curves all_data = Raise KeyError.
Proof.
  intros Hd Hne. unfold potential_curves. rewrite Hd. cbn [bind].
  destruct (run_max_exists _ _ Hd) as (m & -> & _). cbn [bind].
  unfold dict_getitem. rewrite dict_get_None_keys; [reflexivity|].
  intros Hin. destruct (build_data_keys _ _ _ Hd Hin) as [E|H];
    [discriminate | contradiction].
Qed.

(** X12.  When no body has a positive orbital distance, [max_S] is 0 and
    the coarse grid cannot be built: the sampler raises
    [ZeroDivisionError]. *)
Theorem no_orbit_raises_ZeroDivisionError
    (all_data : dict planet) (data : dict body) (hearth : body) :
  build_data all_data = Ok data ->
  dict_get "earth" data = Some hearth ->
  (forall name p, In (name, p) data -> body_S p <= 0) ->
  potential_curves all_data = Raise ZeroDivisionError.
Proof.
  intros Hd He Hall. unfold potential_curves. rewrite Hd. cbn [bind].
  destruct (run_max_exists _ _ Hd) as (m & Hm & H0). rewrite Hm. cbn [bind].
  unfold dict_getitem. rewrite He. cbn [bind].
  assert (Hm0 : m == 0).
  { destruct (py_max_spec _ _ Hm) as [Hin _]. unfold values in Hin.
    rewrite map_map in Hin. apply in_map_iff in Hin.
    destruct Hin as ([name p] & <- & Hin). simpl in *.
    pose proof (Hall name p Hin). lra. }
  unfold arange. rewrite py_div_zero; [reflexivity|]. rewrite Hm0. reflexivity.
Qed.




(** ** How many samples, and where *)







(** X15.  In a run that returns, every body's curve has a sample at
    every point of the coarse grid, and the aggregate has a sample at
    every distance of every body's curve, so at every point of the coarse
    grid too. *)
Theorem curves_cover (all_data : dict planet) (st : locals) :
  potential_curves all_data = Ok st ->
  exists phi0 allc,
    body_loop (base_S_range st) (data st) [] = Ok phi0 /\
    phi st = dict_set "all" allc phi0 /\
    (forall name c x, In (name, c) phi0 -> In x (base_S_range st) ->
       exists v, In (x, v) c) /\
    (forall name c d v, In (name, c) phi0 -> In (d, v) c ->
       exists total, In (d, total) allc) /\
    (forall x, In x (base_S_range st) -> exists total, In (x, total) allc).
Proof.
  intros H. destruct (potential_curves_inv _ _ H) as (m & phi0 & allc & F).
  destruct (run_entries _ _ _ _ _ F) as (_ & Hto & Hfrom).
  destruct (all_curve_inv _ _ _ (rf_all _ _ _ _ _ F)) as [Hfst _].
  assert (Hall : forall d, In d (all_S_values phi0) ->
                           exists total, In (d, total) allc).
  { intros d Hd.
    assert (Hin : In d (map fst allc)).
    { rewrite Hfst. eapply Permutation_in; [symmetry; apply sorted_perm|].
      exact Hd. }
    apply in_map_iff in Hin. destruct Hin as ([d' total] & E & Hin).
    simpl in E. subst d'. eauto. }
  assert (Hcov : forall name c d v, In (name, c) phi0 -> In (d, v) c ->
                                    exists total, In (d, total) allc).
  { intros name c d v Hc Hin. apply Hall. unfold all_S_values, values.
    apply in_flat_map. exists c. split.
    - apply in_map_iff. exists (name, c). auto.
    - apply in_map_iff. exists (d, v). auto. }
  assert (Hcoarse : forall name c x, In (name, c) phi0 ->
            In x (base_S_range st) -> exists v, In (x, v) c).
  { intros name c x Hc Hx. destruct (Hfrom name c Hc) as (p & _ & Hb).
    destruct (body_curve_coarse _ p c x Hb Hx) as (v & Hin & _). eauto. }
  exists phi0, allc.
  split; [apply (rf_loop _ _ _ _ _ F)|].
  split; [apply (rf_phi _ _ _ _ _ F)|].
  split; [exact Hcoarse|]. split; [exact Hcov|].
  intros x Hx.
  destruct (build_data_inv _ _ (rf_data _ _ _ _ _ F)) as [_ Hsun].
  destruct (Hto _ _ Hsun) as (c & Hc & _).
  destruct (Hcoarse _ c x Hc Hx) as [v Hv]. eauto.
Qed.

Lemma Qsum_member_le ws w :
  Forall (fun x => 0 <= x) ws -> In w ws -> w <= Qsum ws.
Proof.
  induction 1 as [|x ws Hx Hall IH]; simpl; [tauto|].
  pose proof (Qsum_nonneg ws Hall).
  intros [->|Hin]; [lra|]. specialize (IH Hin). lra.
Qed.

(** X16.  In a run that returns on bodies with [M >= 0] and [R >= 0], at
    every distance of the aggregate curve the total is at least the
    magnitude of each single body there, which is itself [>= 0]. *)
Theorem total_dominates (all_data : dict planet) (st : locals) :
  potential_curves all_data = Ok st ->
  (forall name p, In (name, p) (data st) -> 0 <= body_M p /\ 0 <= body_R p) ->
  exists allc,
    dict_get "all" (phi st) = Some allc /\
    forall d total name p,
      In (d, total) allc -> In (name, p) (data st) ->
      exists w, neg_get_phi (body_M p) (body_R p) (Qabs (body_S p - d)) = Ok w /\
                0 <= w /\ w <= total.
Proof.
  intros H Hvalid. destruct (potential_curves_inv _ _ H) as (m & phi0 & allc & F).
  exists allc. split; [rewrite (rf_phi _ _ _ _ _ F); apply dict_get_set_same|].
  intros d total name p Hin Hp.
  destruct (all_curve_inv _ _ _ (rf_all _ _ _ _ _ F)) as [_ Hval].
  destruct (Hval d total Hin) as [_ (ws & Hws & Hsum)].
  assert (Hpv : In p (values (data st))).
  { unfold values. apply in_map_iff. exists (name, p). auto. }
  destruct (Forall2_In_l _ _ _ _ Hws Hpv) as (w & Hw & Hmag).
  exists w. split; [exact Hmag|].
  assert (Hnn : Forall (fun x => 0 <= x) ws).
  { apply Forall_forall. intros x Hx.
    destruct (Forall2_In_r _ _ _ _ Hws Hx) as (q & Hq & Hqx).
    unfold values in Hq. apply in_map_iff in Hq.
    destruct Hq as ([n q'] & E & Hq). simpl in E. subst q'.
    destruct (Hvalid n q Hq) as [HM HR0].
    apply (neg_get_phi_nonneg _ _ _ _ HM HR0 (Qabs_nonneg _) Hqx). }
  split; [|rewrite Hsum; now apply Qsum_member_le].
  rewrite Forall_forall in Hnn. now apply Hnn.
Qed.

(** X17.  In a run that returns on a dataset with distinct names, the
    keys of [data] are the dataset's names with "sun" added last unless
    present, the keys of [phi] are those of [data] with "all" added last
    unless a body has that name, and neither has a key twice. *)
Theorem run_keys (all_data : dict planet) (st : locals) :
  NoDup (map fst all_data) ->
  potential_curves all_data = Ok st ->
  map fst (data st) = keys_after_set "sun" (map fst all_data) /\
  map fst (phi st) = keys_after_set "all" (map fst (data st)) /\
  NoDup (map fst (data st)) /\ NoDup (map fst (phi st)).
Proof.
  intros Hnd H. destruct (potential_curves_inv _ _ H) as (m & phi0 & allc & F).
  pose proof (build_data_keys_list _ _ Hnd (rf_data _ _ _ _ _ F)) as Hk.
  destruct (build_data_inv _ _ (rf_data _ _ _ _ _ F)) as [Hnd' _].
  destruct (body_loop_entries _ _ _ Hnd' (rf_loop _ _ _ _ _ F)) as [Hk0 _].
  split; [exact Hk|]. rewrite (rf_phi _ _ _ _ _ F).
  split; [now rewrite dict_set_keys_list, Hk0|].
  split; [exact Hnd'|]. apply dict_set_NoDup. now rewrite Hk0.
Qed.

(** ** The plotted lines *)

Lemma sorted_by_fixed {A : Type} (key : A -> Q) l :
  StronglySorted (key_le key) l -> sorted_by key l = l.
Proof.
  induction 1 as [|x l Hs IH Hall]; simpl; [reflexivity|].
  rewrite IH. destruct l as [|y l']; [reflexivity|]. simpl.
  inversion Hall as [|? ? Hxy _]; subst. unfold key_le in Hxy.
  apply Qle_bool_iff in Hxy. now rewrite Hxy.
Qed.

Lemma sorted_by_idempotent {A : Type} (key : A -> Q) l :
  sorted_by key (sorted_by key l) = sorted_by key l.
Proof. apply sorted_by_fixed, sorted_by_sorted. Qed.

Lemma distances_in_AU_closed AU c :
  distances_in_AU AU c = mapM (fun d => py_div (fst d) AU) c.
Proof.
  induction c as [|d rest IH]; simpl; [reflexivity|]. now rewrite IH.
Qed.

Lemma distances_in_AU_Ok AU c xs :
  distances_in_AU AU c = Ok xs ->
  xs = map (fun d => fst d / AU) c /\ (c <> [] -> ~ AU == 0).
Proof.
  revert xs. induction c as [|d rest IH]; simpl; intros xs H.
  - injection H as <-. split; [reflexivity | congruence].
  - inv_bind H as x Hx. inv_bind H as xs' Hxs. injection H as <-.
    apply py_div_Ok_inv in Hx. destruct Hx as [Hnz ->].
    destruct (IH _ Hxs) as [-> _]. split; [reflexivity | auto].
Qed.


Lemma sorted_in_place_refl phi : sorted_in_place phi phi.
Proof. intros k. now left. Qed.

Lemma sorted_in_place_lookup phi0 phi name c :
  sorted_in_place phi0 phi -> dict_get name phi = Some c ->
  exists c0, dict_get name phi0 = Some c0 /\
             sorted_by fst c = sorted_by fst c0.
Proof.
  intros Hs Hc. destruct (Hs name) as [E|(c0 & E0 & E)].
  - exists c. split; [congruence | reflexivity].
  - exists c0. split; [exact E0|].
    rewrite Hc in E. injection E as ->. apply sorted_by_idempotent.
Qed.

Lemma sorted_in_place_step phi0 phi name c :
  sorted_in_place phi0 phi -> dict_get name phi = Some c ->
  sorted_in_place phi0 (dict_set name (sorted_by fst c) phi).
Proof.
  intros Hs Hc k. destruct (string_dec k name) as [->|Hne].
  - rewrite dict_get_set_same.
    destruct (sorted_in_place_lookup _ _ _ _ Hs Hc) as (c0 & E0 & E).
    right. exists c0. split; [exact E0 | now rewrite E].
  - rewrite dict_get_set_other by exact Hne. apply Hs.
Qed.

Lemma plot_loop_lines AU names phi0 phi ax phi' ax' :
  sorted_in_place phi0 phi ->
  plot_loop AU names phi ax = Ok (phi', ax') ->
  sorted_in_place phi0 phi' /\
  xticks_minor ax' = xticks_minor ax /\
  xticks_major ax' = xticks_major ax /\
  yscale ax' = yscale ax /\
  exists new,
    lines ax' = lines ax ++ new /\
    Forall2 (fun name l => exists c, dict_get name phi0 = Some c /\
                                     drawn AU name c l) names new.
Proof.
  revert phi ax. induction names as [|name rest IH]; intros phi ax Hs H.
  - simpl in H. injection H as <- <-. repeat split; auto.
    exists []. rewrite app_nil_r. split; [reflexivity | constructor].
  - simpl in H. inv_bind H as c Hc. inv_bind H as xs Hxs.
    unfold dict_getitem in Hc.
    destruct (dict_get name phi) as [c'|] eqn:Hget; [|discriminate].
    injection Hc as Hc. subst c'.
    destruct (sorted_in_place_lookup _ _ _ _ Hs Hget) as (c0 & E0 & E).
    apply (IH _ _ (sorted_in_place_step _ _ _ _ Hs Hget)) in H.
    destruct H as (Hs' & Hmin & Hmaj & Hy & new & Hlines & Hf).
    split; [exact Hs'|]. split; [exact Hmin|]. split; [exact Hmaj|].
    split; [exact Hy|].
    destruct (distances_in_AU_Ok _ _ _ Hxs) as [-> _].
    eexists (_ :: new). split.
    + rewrite Hlines. cbn [lines plot]. rewrite <- app_assoc. reflexivity.
    + constructor; [|exact Hf]. exists c0. split; [exact E0|].
      unfold drawn. cbn. rewrite <- E. repeat split.
Qed.


Lemma map_div_sorted AU (c : curve) :
  0 < AU -> StronglySorted (key_le fst) c ->
  StronglySorted Qle (map (fun d => fst d / AU) c).
Proof.
  intros HAU. induction 1 as [|d c Hs IH Hall]; simpl; constructor; [exact IH|].
  apply Forall_forall. intros x Hx. apply in_map_iff in Hx.
  destruct Hx as (d' & <- & Hd'). rewrite Forall_forall in Hall.
  specialize (Hall d' Hd'). unfold key_le in Hall.
  apply Qle_shift_div_l; [exact HAU|].
  setoid_replace (fst d / AU * AU) with (fst d) by (field; lra). exact Hall.
Qed.

Lemma render_inv st ax :
  render st = Ok ax ->
  exists q ticks r,
    py_div (max_S st) (AU st) = Ok q /\
    arange 0 (inject_Z (py_int q)) 5 = Ok ticks /\
    plot_loop (AU st)
      ("all"%string :: map fst (sorted_by (fun x => body_S (snd x)) (data st)))
      (phi st)
      (set_xticks ticks false
         (set_xticks (py_range (py_int q)) true
            (restore_minor_ticks_log_plot (set_yscale "log" new_axes)
               (Some (set_yscale "log" new_axes)) n_subticks_default)))
    = Ok r /\ ax = snd r.
Proof.
  unfold render. intros H.
  inv_bind H as q Hq. inv_bind H as q' Hq'. inv_bind H as ticks Hticks.
  inv_bind H as r Hr. injection H as <-.
  assert (q' = q) by congruence. subst q'.
  exists q, ticks, r. auto.
Qed.

(** X18.  On the axes the renderer returns: the Y scale is logarithmic;
    the lines are, in order, the series "all" and then the bodies sorted
    by orbital distance, bodies at equal distance in the order of [data];
    each line carries the label, width and opacity of its series; its
    points are the samples of the curve sorted by distance, samples at
    equal distance in the order they were stored, with the distances
    divided by [AU] as X values, nondecreasing when [AU > 0], and the
    magnitudes as Y values. *)
Theorem render_lines (st : locals) (ax : Axes) :
  render st = Ok ax ->
  ~ AU st == 0 /\
  yscale ax = "log"%string /\
  exists items,
    stable_sort_of (fun x => body_S (snd x)) (data st) items /\
    Forall2 (fun name l =>
               exists c sc,
                 dict_get name (phi st) = Some c /\
                 stable_sort_of fst c sc /\
                 line_x l = map (fun d => fst d / AU st) sc /\
                 line_y l = map snd sc /\
                 line_fmt l = "-"%string /\
                 label l = translate name /\
                 linewidth l
                 = (if String.eqb name "all" then 15 # 10 else 1) /\
                 alpha l = (if String.eqb name "all" then 1 else 7 # 10))
            ("all"%string :: map fst items) (lines ax) /\
    (0 < AU st -> Forall (fun l => StronglySorted Qle (line_x l)) (lines ax)).
Proof.
  intros H. destruct (render_inv st ax H) as (q & ticks & [phi' ax'] & Hq & _ & Hr & ->).
  apply py_div_Ok_inv in Hq. destruct Hq as [Hnz _].
  apply (plot_loop_lines _ _ (phi st)) in Hr; [|apply sorted_in_place_refl].
  destruct Hr as (_ & _ & _ & Hy & new & Hlines & Hf).
  cbn [snd]. split; [exact Hnz|]. split; [rewrite Hy; reflexivity|].
  exists (sorted_by (fun x => body_S (snd x)) (data st)).
  split; [apply sorted_by_stable|].
  cbn [lines restore_minor_ticks_log_plot set_xticks set_yscale new_axes app]
    in Hlines.
  rewrite Hlines. split.
  - eapply Forall2_impl; [|exact Hf]. cbv beta.
    intros name l (c & Hc & Hx & Hyl & Hrest).
    exists c, (sorted_by fst c). split; [exact Hc|].
    split; [apply sorted_by_stable|]. split; [exact Hx|].
    split; [exact Hyl | exact Hrest].
  - intros HAU. clear Hlines.
    induction Hf as [|name l names ls (c & _ & Hd) _ IH]; constructor; [|exact IH].
    destruct Hd as (-> & _). apply map_div_sorted; [exact HAU|].
    apply sorted_by_sorted.
Qed.


(** ** The ticks of the X axis *)

Lemma In_py_range n x :
  In x (py_range n) <-> exists j : Z, (0 <= j < n)%Z /\ x = inject_Z j.
Proof.
  unfold py_range. rewrite in_map_iff. split.
  - intros (i & <- & Hi). apply in_seq in Hi. exists (Z.of_nat i). split; [lia|].
    reflexivity.
  - intros (j & Hj & ->). exists (Z.to_nat j). split.
    + now rewrite Z2Nat.id by lia.
    + apply in_seq. lia.
Qed.

Lemma ceiling_fifth (n k : Z) :
  (k < Qceiling ((inject_Z n - 0) / 5))%Z <-> (5 * k < n)%Z.
Proof.
  set (x := (inject_Z n - 0) / 5).
  assert (Hx : x * 5 == inject_Z n) by (unfold x; field).
  pose proof (Qle_ceiling x) as Hup. pose proof (Qceiling_lt x) as Hlow.
  split; intros H.
  - assert (Hk : inject_Z k <= inject_Z (Qceiling x - 1)).
    { rewrite <- Zle_Qle. lia. }
    assert (inject_Z (5 * k) < inject_Z n); [|now rewrite <- Zlt_Qlt in *].
    rewrite inject_Z_mult, <- Hx. change (inject_Z 5) with 5. lra.
  - assert (inject_Z (5 * k) < inject_Z n) by now rewrite <- Zlt_Qlt.
    rewrite inject_Z_mult, <- Hx in H0. change (inject_Z 5) with 5 in H0.
    assert (inject_Z k < inject_Z (Qceiling x)) by lra.
    now rewrite <- Zlt_Qlt in *.
Qed.

(** X19.  On the axes the renderer returns, with [n = int(max_S/AU)]: the
    minor ticks of the X axis are the integers [0 .. n-1], and the major
    ticks are exactly the multiples of 5 among them. *)
Theorem render_xticks (st : locals) (ax : Axes) :
  render st = Ok ax ->
  exists q,
    py_div (max_S st) (AU st) = Ok q /\
    xticks_minor ax = py_range (py_int q) /\
    (forall t, In t (xticks_major ax) ->
       exists k : Z, (0 <= 5 * k < py_int q)%Z /\ t == inject_Z (5 * k)) /\
    (forall k : Z, (0 <= 5 * k < py_int q)%Z ->
       exists t, In t (xticks_major ax) /\ t == inject_Z (5 * k)).
Proof.
  intros H.
  destruct (render_inv st ax H) as (q & ticks & [phi' ax'] & Hq & Hticks & Hr & ->).
  apply (plot_loop_lines _ _ (phi st)) in Hr; [|apply sorted_in_place_refl].
  destruct Hr as (_ & Hmin & Hmaj & _). cbn [snd].
  exists q. split; [exact Hq|]. rewrite Hmin, Hmaj.
  cbn [xticks_minor xticks_major set_xticks].
  split; [reflexivity|].
  rewrite arange_from_0 in Hticks by discriminate. injection Hticks as <-.
  split.
  - intros t Ht. apply In_grid in Ht. destruct Ht as (i & Hi & ->).
    exists (Z.of_nat i). split.
    + split; [lia|]. apply ceiling_fifth. lia.
    + rewrite inject_Z_mult. change (inject_Z 5) with 5. ring.
  - intros k [H0 Hk]. apply ceiling_fifth in Hk.
    exists (0 + inject_Z (Z.of_nat (Z.to_nat k)) * 5). split.
    + unfold grid. apply in_map_iff. exists (Z.to_nat k). split; [reflexivity|].
      apply in_seq. lia.
    + rewrite Z2Nat.id by lia. rewrite inject_Z_mult.
      change (inject_Z 5) with 5. ring.
Qed.

(** ** When the renderer returns *)






(** ** The further properties at the sample data *)

Lemma get_solar_system_data_again_witness :
  exists w',
    get_solar_system_data string (fun text => Ok text) (fun data => data)
      example_world = (w', Ok "{}"%string) /\
    get_solar_system_data string (fun text => Ok text) (fun data => data) w'
      = (w', Ok "{}"%string).
Proof.
  eexists. split; [reflexivity|].
  apply (get_solar_system_data_again string (fun text => Ok text)
           (fun data => data) (fun data => eq_refl) example_world).
  reflexivity.
Defined.

Lemma magnitude_decreasing_witness :
  exists v1 v2,
    neg_get_phi M_sun R_sun 0 = Ok v1 /\
    neg_get_phi M_sun R_sun (2 * R_sun) = Ok v2 /\ v2 <= v1.
Proof.
  eexists. eexists. split; [reflexivity|]. split; [reflexivity|].
  apply (magnitude_decreasing M_sun R_sun 0 (2 * R_sun));
    [discriminate | reflexivity | discriminate | discriminate
    | reflexivity | reflexivity].
Defined.

Lemma magnitude_bounded_by_centre_witness :
  exists x x0,
    get_phi M_sun R_sun (2 * R_sun) = Ok x /\
    get_phi M_sun R_sun 0 = Ok x0 /\
    x0 == - ((15 # 10) * G * M_sun / R_sun) /\ - x <= - x0.
Proof.
  assert (HM : 0 <= M_sun) by discriminate.
  assert (HR : 0 < R_sun) by reflexivity.
  eexists. eexists. split; [reflexivity|]. split; [reflexivity|].
  exact (magnitude_bounded_by_centre M_sun R_sun (2 * R_sun) _ _ HM HR
           eq_refl eq_refl).
Defined.

Lemma build_data_entries_witness :
  dict_get "sun" example_data = Some sun /\
  map fst example_data = ["earth"; "sun"]%string.
Proof.
  assert (Hnd : NoDup (map fst example_dataset))
    by (constructor; [simpl; tauto | constructor]).
  destruct (build_data_entries example_dataset example_data Hnd eq_refl)
    as (Hsun & Hkeys & _).
  split; [exact Hsun | exact Hkeys].
Defined.

Lemma missing_earth_witness :
  potential_curves dataset_without_earth = Raise KeyError.
Proof.
  eapply (missing_earth_raises_KeyError dataset_without_earth);
    [reflexivity|].
  simpl. intros [H|[]]. discriminate.
Defined.

Lemma no_orbit_witness :
  potential_curves dataset_at_origin = Raise ZeroDivisionError.
Proof.
  eapply (no_orbit_raises_ZeroDivisionError dataset_at_origin);
    [reflexivity | reflexivity |].
  intros name p [E|[E|[]]]; injection E as _ <-; discriminate.
Defined.



Lemma curves_cover_witness :
  exists st,
    potential_curves example_dataset = Ok st /\
    exists allc : curve, forall x, In x (base_S_range st) ->
      exists total, In (x, total) allc.
Proof.
  destruct example_run as (st & Hst & _). exists st. split; [exact Hst|].
  destruct (curves_cover example_dataset st Hst)
    as (phi0 & allc & _ & _ & _ & _ & Hall).
  exists allc. exact Hall.
Defined.

Lemma total_dominates_witness :
  exists st allc,
    potential_curves example_dataset = Ok st /\
    dict_get "all" (phi st) = Some allc.
Proof.
  destruct example_run as (st & Hst & Hdata).
  destruct (total_dominates example_dataset st Hst) as (allc & Hall & _).
  { rewrite Hdata. intros name p Hp.
    destruct (example_bodies name p Hp) as (HM & HR & _).
    split; [exact HM | apply Qlt_le_weak, HR]. }
  exists st, allc. split; [exact Hst | exact Hall].
Defined.

Lemma run_keys_witness :
  exists st,
    potential_curves example_dataset = Ok st /\
    map fst (data st) = ["earth"; "sun"]%string /\
    map fst (phi st) = ["earth"; "sun"; "all"]%string.
Proof.
  destruct example_run as (st & Hst & Hdata). exists st. split; [exact Hst|].
  assert (Hnd : NoDup (map fst example_dataset))
    by (constructor; [simpl; tauto | constructor]).
  destruct (run_keys example_dataset st Hnd Hst) as (Hk & Hp & _).
  split; [exact Hk|]. rewrite Hp, Hk. reflexivity.
Defined.

Lemma render_lines_witness :
  exists ax items,
    render example_locals = Ok ax /\
    yscale ax = "log"%string /\
    stable_sort_of (fun x => body_S (snd x)) (data example_locals) items /\
    Forall2 (fun name l =>
               exists c sc,
                 dict_get name (phi example_locals) = Some c /\
                 stable_sort_of fst c sc /\
                 line_x l = map (fun d => fst d / AU example_locals) sc /\
                 line_y l = map snd sc /\
                 line_fmt l = "-"%string /\
                 label l = translate name /\
                 linewidth l
                 = (if String.eqb name "all" then 15 # 10 else 1) /\
                 alpha l = (if String.eqb name "all" then 1 else 7 # 10))
            ("all"%string :: map fst items) (lines ax).
Proof.
  destruct (render example_locals) as [ax|e] eqn:Hr;
    [|vm_compute in Hr; discriminate].
  destruct (render_lines example_locals ax Hr)
    as (_ & Hy & items & Hs & Hf & _).
  exists ax, items. split; [reflexivity|]. split; [exact Hy|].
  split; [exact Hs | exact Hf].
Defined.

Lemma render_xticks_witness :
  exists ax q,
    render example_locals = Ok ax /\
    py_div (max_S example_locals) (AU example_locals) = Ok q /\
    xticks_minor ax = py_range (py_int q).
Proof.
  destruct (render example_locals) as [ax|e] eqn:Hr;
    [|vm_compute in Hr; discriminate].
  destruct (render_xticks example_locals ax Hr) as (q & Hq & Hmin & _).
  exists ax, q. split; [reflexivity|]. split; [exact Hq | exact Hmin].
Defined.

